(** * SimpleLogger: a shallow embedding of SimpleLogger.h and its properties

    The development follows the header top to bottom: the severity table,
    the constructor with its try block, the destructor, [operator<<] and the
    two static setters.  The C++ standard library pieces the header relies
    on ([std::wostream], [std::wosyncstream], [std::unique_ptr],
    [std::array::at]) are modelled by what the header observes of them:

    - a [wostream] is the sequence of wide characters its buffer has
      received so far, plus the [good()] bit read by [SetOstream];
    - a [wosyncstream] keeps the characters inserted into it in a buffer of
      its own and transfers them, as one block, to the buffer of the stream
      it wraps when it is destroyed (ISO C++ [syncstream.syncbuf]);
    - stream objects live in a heap, because a [wosyncstream] refers to the
      stream it wraps by address and [SetOstream] deletes streams;
    - a [wosyncstream] has an error state: once badbit or failbit is set,
      the standard inserters and [std::endl] write nothing more into it,
      while the characters already pending are still transferred when it
      is destroyed; the stream behind [out_stream_] is only written through
      its buffer, which takes no notice of the stream's own state;
    - the buffers accept every character handed to them;
    - [severity_map] is a non-static member: every object allocates its
      five strings before the body of the constructor is entered.

    [mutex_] is not a field of the model.  The setters hold it exclusively
    for their whole body, the constructor and the destructor hold it shared
    for theirs, and [operator<<] touches only the members of its own object.
    A constructor or destructor therefore never overlaps a setter; two of
    them may overlap each other, but all they do to shared state is read the
    statics and hand a block of characters to the sink, which
    [std::wosyncstream] does atomically with respect to every other
    synchronized stream on the same buffer.  Each member function call is
    therefore one transition of the process state, and concurrency is the
    interleaving of such transitions. *)

From Stdlib Require Import ZArith String Ascii DecimalString.
From stdpp Require Import base option list.

(** ** Text *)

(** [wchar_t] as its code; [std::wstring] as the sequence of its characters. *)
Definition wchar_t := N.
Definition wstring := list wchar_t.

(** The wide string literal [L"..."]. *)
Definition L (s : string) : wstring := N_of_ascii <$> list_ascii_of_string s.

(** The character written by [std::endl]. *)
Definition endl : wstring := L (String "010"%char EmptyString).

(** ** Exceptions and calls into user code *)

(** An exception is either derived from [std::exception], and then carries
    its [what()] text, or it is of any other type. *)
Inductive exn : Type :=
| std_exception (what : string)
| other_exception.

(** The outcome of calling code the header does not control. *)
Inductive call (A : Type) : Type :=
| yields (a : A)
| raises (e : exn).
Arguments yields {A} a.
Arguments raises {A} e.

(** What a call made by the constructor can observe of its environment: the
    system clock (read by [DateTimePrefix] in main.cpp) and what the free
    store answers to the allocations of the call, in the order they are
    made: first the strings of the member [severity_map], then the
    synchronized stream of [std::make_unique]. *)
Record World : Type := {
  system_clock : nat;
  table_new : call unit;
  adapter_new : call unit
}.

(** The free store over the whole call: it returns when every allocation is
    served, and throws what the first allocation refused throws. *)
Definition operator_new (w : World) : call unit :=
  match table_new w with
  | yields _ => adapter_new w
  | raises e => raises e
  end.

(** [using PrefixFunction = std::function<std::wstring()>]. *)
Definition PrefixFunction := World -> call wstring.

(** ** Severities *)

(** [enum class Severity : uint8_t]: every value of the underlying type is a
    value of the enumeration, the five enumerators are the first five. *)
Definition Severity := nat.
Definition kDebug : Severity := 0.
Definition kInfo : Severity := 1.
Definition kWarning : Severity := 2.
Definition kError : Severity := 3.
Definition kCritical : Severity := 4.

Definition severity_map : list wstring :=
  [ L"DEBUG"; L"INFO"; L"WARNING"; L"ERROR"; L"CRITICAL" ].

(** The text of the [std::out_of_range] thrown by [std::array::at] is
    implementation-defined; nothing below depends on it. *)
Definition out_of_range_what : string := "array::at"%string.

(** [std::array::at]: bounds-checked access. *)
Definition at_ (a : list wstring) (i : nat) : call wstring :=
  match a !! i with
  | Some x => yields x
  | None => raises (std_exception out_of_range_what)
  end.

(** ** Streams and the process state *)

Record wostream : Type := {
  rdbuf : wstring;
  good : bool
}.

Inductive object : Type :=
| live (s : wostream)
| deleted.

Definition ptr := nat.

(** The static members of the class, the heap of stream objects and the
    characters written to [std::cerr]. *)
Record Process : Type := {
  heap : list object;
  prefix_function_list_ : list PrefixFunction;
  out_stream_ : option ptr;
  out_stream_valid_ : bool;
  cerr : string
}.

(** The state at program start: the in-class initialisers of the statics. *)
Definition initial : Process :=
  {| heap := []; prefix_function_list_ := []; out_stream_ := None;
     out_stream_valid_ := false; cerr := EmptyString |}.

(** A synchronized stream: the stream it wraps, the characters it holds
    back, and whether badbit or failbit is set. *)
Record wosyncstream : Type := {
  wrapped : ptr;
  pending : wstring;
  error : bool
}.

(** The non-static members of a [SimpleLogger] object. *)
Record SimpleLogger : Type := {
  newline_ : bool;
  out_sync_stream_ : option wosyncstream;
  out_sync_stream_valid_ : bool
}.

(** How a member function ends. [Throws] carries the process state left by
    unwinding; [Terminates] is [std::terminate]. *)
Inductive result (A : Type) : Type :=
| Returns (a : A)
| Throws (e : exn) (p : Process)
| Terminates
| Undefined.
Arguments Returns {A} a.
Arguments Throws {A} e p.
Arguments Terminates {A}.
Arguments Undefined {A}.

(** An inserter that writes [text] and leaves the error state [sets],
    applied to a synchronized stream: it writes nothing and changes nothing
    when an error bit is already set. *)
Definition write (text : wstring) (sets : bool) (s : wosyncstream)
    : wosyncstream :=
  if error s then s
  else {| wrapped := wrapped s; pending := pending s ++ text; error := sets |}.

(** Insertion of characters by a standard inserter or by [std::endl]. *)
Definition put (text : wstring) (s : wosyncstream) : wosyncstream :=
  write text false s.

(** [~wosyncstream]: the pending characters are transferred to the wrapped
    buffer, whatever the error state. The wrapped stream must still exist. *)
Definition emit (s : wosyncstream) (p : Process) : option Process :=
  match heap p !! wrapped s with
  | Some (live o) =>
      Some {| heap := <[wrapped s := live {| rdbuf := rdbuf o ++ pending s;
                                             good := good o |}]> (heap p);
              prefix_function_list_ := prefix_function_list_ p;
              out_stream_ := out_stream_ p;
              out_stream_valid_ := out_stream_valid_ p;
              cerr := cerr p |}
  | _ => None
  end.

(** [std::unique_ptr<std::wosyncstream>::reset()] and the destructor of
    that member. *)
Definition reset (o : option wosyncstream) (p : Process) : option Process :=
  match o with
  | None => Some p
  | Some s => emit s p
  end.

(** [std::cerr << "caught exception: " << e.what() << std::endl]. *)
Definition report (what : string) (p : Process) : Process :=
  {| heap := heap p;
     prefix_function_list_ := prefix_function_list_ p;
     out_stream_ := out_stream_ p;
     out_stream_valid_ := out_stream_valid_ p;
     cerr := (cerr p ++ "caught exception: " ++ what
                     ++ String "010" EmptyString)%string |}.

(** ** The try block of the constructor

    Statements of the try block act on the members of the object under
    construction and may throw; what was done before the throw stays done. *)
Definition block (A : Type) : Type := SimpleLogger -> SimpleLogger * call A.

#[global] Instance block_ret : MRet block :=
  fun A (a : A) this => (this, yields a).

#[global] Instance block_bind : MBind block :=
  fun A B (k : A -> block B) (m : block A) this =>
    match m this with
    | (this', yields a) => k a this'
    | (this', raises e) => (this', raises e)
    end.

(** A call into user or library code, inside the block. *)
Definition invoke {A} (c : call A) : block A := fun this => (this, c).

(** [out_sync_stream_ = std::make_unique<std::wosyncstream>(sink)]. *)
Definition make_unique (w : World) (sink : ptr) : block unit :=
  fun this =>
    match adapter_new w with
    | yields _ =>
        ({| newline_ := newline_ this;
            out_sync_stream_ :=
              Some {| wrapped := sink; pending := []; error := false |};
            out_sync_stream_valid_ := out_sync_stream_valid_ this |},
         yields tt)
    | raises e => (this, raises e)
    end.

(** [out_sync_stream_valid_ = true]. *)
Definition set_valid : block unit :=
  fun this =>
    ({| newline_ := newline_ this;
        out_sync_stream_ := out_sync_stream_ this;
        out_sync_stream_valid_ := true |}, yields tt).

(** [*out_sync_stream_.get() << text]. The block reaches an insertion only
    after [make_unique] has returned, so the pointer is never null here. *)
Definition insert (text : wstring) : block unit :=
  fun this =>
    ({| newline_ := newline_ this;
        out_sync_stream_ := put text <$> out_sync_stream_ this;
        out_sync_stream_valid_ := out_sync_stream_valid_ this |}, yields tt).

(** [for (const auto& prefix : list) *out_sync_stream_.get() << prefix();] *)
Fixpoint for_each_prefix (w : World) (list : list PrefixFunction) : block unit :=
  match list with
  | [] => mret tt
  | prefix :: rest =>
      text ← invoke (prefix w);
      insert text;;
      for_each_prefix w rest
  end.

Definition try_block (severity : Severity) (w : World) (p : Process)
    (sink : ptr) : block unit :=
  make_unique w sink;;
  set_valid;;
  for_each_prefix w (prefix_function_list_ p);;
  tag ← invoke (at_ severity_map severity);
  insert tag;;
  insert (L": ").

(** ** Constructor *)

(** The members of a [SimpleLogger] before the constructor body runs: the
    initialiser [newline_(newline)] and the in-class initialisers. *)
Definition fresh (newline : bool) : SimpleLogger :=
  {| newline_ := newline; out_sync_stream_ := None;
     out_sync_stream_valid_ := false |}.

(** [SimpleLogger(Severity severity, bool newline)]. The member
    [severity_map] is initialised first, before the body and outside its try
    block: an exception of its allocations leaves the constructor with
    nothing done. In the body, the exception handler takes [std::exception]
    only; any other exception leaves the constructor, and the members
    already constructed are destroyed on the way out. *)
Definition constructor (severity : Severity) (newline : bool) (w : World)
    (p : Process) : result (SimpleLogger * Process) :=
  match table_new w with
  | raises e => Throws e p
  | yields _ =>
      let this := fresh newline in
      if out_stream_valid_ p then
        match out_stream_ p with
        | None => Undefined
        | Some sink =>
            match heap p !! sink with
            | Some (live _) =>
                match try_block severity w p sink this with
                | (this', yields _) => Returns (this', p)
                | (this', raises (std_exception what)) =>
                    Returns (this', report what p)
                | (this', raises e) =>
                    match reset (out_sync_stream_ this') p with
                    | Some p' => Throws e p'
                    | None => Undefined
                    end
                end
            | _ => Undefined
            end
        end
      else Returns (this, p)
  end.

(** ** Destructor *)

(** [~SimpleLogger()]. *)
Definition destructor (this : SimpleLogger) (p : Process) : result Process :=
  let after_newline :=
    if newline_ this && out_sync_stream_valid_ this then
      match out_sync_stream_ this with
      | Some s => Some (Some (put endl s))
      | None => None
      end
    else Some (out_sync_stream_ this) in
  match after_newline with
  | None => Undefined
  | Some o =>
      match reset o p with
      | Some p' => Returns p'
      | None => Undefined
      end
  end.

(** ** operator<< *)

(** The types a value of which can be inserted into a [std::wostream]:
    [insertion v] is what [stream << v] does to a stream without error bit,
    the characters it inserts and whether it leaves badbit or failbit set,
    or the exception it throws. On a stream with an error bit set an
    inserter that returns writes nothing, as the standard ones do; an
    inserter that throws is one that throws whatever the state, as a
    user-defined inserter may. *)
Class Insertable (T : Type) : Type := insertion : T -> call (wstring * bool).

(** [template <typename T> SimpleLogger& operator<<(const T& value) noexcept].
    An exception that reaches the [noexcept] boundary ends the program. *)
Definition operator_shl `{Insertable T} (this : SimpleLogger) (value : T)
    : result SimpleLogger :=
  if out_sync_stream_valid_ this then
    match out_sync_stream_ this with
    | None => Undefined
    | Some s =>
        match insertion value with
        | yields (text, sets) =>
            Returns {| newline_ := newline_ this;
                       out_sync_stream_ := Some (write text sets s);
                       out_sync_stream_valid_ := out_sync_stream_valid_ this |}
        | raises _ => Terminates
        end
    end
  else Returns this.

(** ** Setters *)

(** [static void SetOstream(std::unique_ptr<std::wostream> out_stream)
    noexcept]. The argument owns its stream, so it is passed as the stream
    itself, or [None] for a null pointer; the stream was allocated by the
    caller while every other stream of the heap existed, so its address is
    new. Move-assignment to [out_stream_] deletes the stream held before. *)
Definition SetOstream (out_stream : option wostream) (p : Process) : Process :=
  let heap' :=
    match out_stream_ p with
    | Some old => <[old := deleted]> (heap p)
    | None => heap p
    end in
  match out_stream with
  | Some s =>
      {| heap := heap' ++ [live s];
         prefix_function_list_ := prefix_function_list_ p;
         out_stream_ := Some (length heap');
         out_stream_valid_ := good s;
         cerr := cerr p |}
  | None =>
      {| heap := heap';
         prefix_function_list_ := prefix_function_list_ p;
         out_stream_ := None;
         out_stream_valid_ := false;
         cerr := cerr p |}
  end.

(** [static void SetPrefixList(const std::vector<PrefixFunction>&
    prefix_list) noexcept]. *)
Definition SetPrefixList (prefix_list : list PrefixFunction) (p : Process)
    : Process :=
  {| heap := heap p;
     prefix_function_list_ := prefix_list;
     out_stream_ := out_stream_ p;
     out_stream_valid_ := out_stream_valid_ p;
     cerr := cerr p |}.

(** ** Insertable types *)

(** Wide text: [L"..."], [std::wstring]. *)
#[global] Instance wstring_insertable : Insertable wstring :=
  fun text => yields (text, false).

(** Integers, in decimal. *)
#[global] Instance Z_insertable : Insertable Z :=
  fun n => yields (L (NilZero.string_of_int (Z.to_int n)), false).

(** A type whose user-defined inserter throws instead of writing. *)
Record throwing : Type := { thrown : exn }.
#[global] Instance throwing_insertable : Insertable throwing :=
  fun v => raises (thrown v).

(** A null [std::wstreambuf*]: its inserter writes nothing and sets
    badbit. *)
Inductive wstreambuf_ptr : Type := null_wstreambuf.
#[global] Instance wstreambuf_ptr_insertable : Insertable wstreambuf_ptr :=
  fun _ => yields ([], true).

(** A type whose user-defined inserter writes a text and then calls
    [setstate(std::ios_base::failbit)]. *)
Record failing : Type := { shown : wstring }.
#[global] Instance failing_insertable : Insertable failing :=
  fun v => yields (shown v, true).

(** A value of some insertable type. *)
Inductive value : Type :=
| Value {T : Type} `{Insertable T} (v : T).

(** ** A logging statement *)

(** [this << v1 << ... << vn]: each call returns the object the next one is
    applied to. *)
Fixpoint chain (this : SimpleLogger) (values : list value)
    : result SimpleLogger :=
  match values with
  | [] => Returns this
  | Value v :: rest =>
      match operator_shl this v with
      | Returns this' => chain this' rest
      | other => other
      end
  end.

(** The full expression [SimpleLogger(severity, newline) << v1 << ... << vn;]
    (the macro [LOG(severity)] is the case [newline = true]): the temporary
    is constructed, the values are inserted, and the temporary is destroyed
    at the end of the expression. *)
Definition log_statement (severity : Severity) (newline : bool)
    (values : list value) (w : World) (p : Process) : result Process :=
  match constructor severity newline w p with
  | Returns (this, p1) =>
      match chain this values with
      | Returns this' => destructor this' p1
      | Throws e q => Throws e q
      | Terminates => Terminates
      | Undefined => Undefined
      end
  | Throws e p' => Throws e p'
  | Terminates => Terminates
  | Undefined => Undefined
  end.

(** ** Processes and threads *)

(** One logging statement of a program, with the environment its
    constructor will find. *)
Record statement : Type := {
  stmt_severity : Severity;
  stmt_newline : bool;
  stmt_values : list value;
  stmt_world : World
}.

(** Statements executed one after the other by a single thread. *)
Fixpoint log_statements (stmts : list statement) (p : Process)
    : result Process :=
  match stmts with
  | [] => Returns p
  | s :: rest =>
      match log_statement (stmt_severity s) (stmt_newline s) (stmt_values s)
                          (stmt_world s) p with
      | Returns p' => log_statements rest p'
      | other => other
      end
  end.

(** A thread executing one logging statement: before the constructor, between
    two member function calls on the temporary, or after the statement. *)
Inductive thread : Type :=
| ready (s : statement)
| active (s : statement) (this : SimpleLogger) (rest : list value)
| finished (s : statement).

(** The next member function call of a thread. The call is one transition of
    the process (see the remark on [mutex_] at the top). A statement left by
    an exception of the constructor is over. There is no next state after
    [std::terminate] or undefined behaviour. *)
Definition advance (t : thread) (p : Process) : option (thread * Process) :=
  match t with
  | ready s =>
      match constructor (stmt_severity s) (stmt_newline s) (stmt_world s) p with
      | Returns (this, p') => Some (active s this (stmt_values s), p')
      | Throws _ p' => Some (finished s, p')
      | _ => None
      end
  | active s this (Value v :: rest) =>
      match operator_shl this v with
      | Returns this' => Some (active s this' rest, p)
      | _ => None
      end
  | active s this [] =>
      match destructor this p with
      | Returns p' => Some (finished s, p')
      | _ => None
      end
  | finished _ => None
  end.

(** The scheduler picks thread [i]. *)
Definition step (i : nat) (c : Process * list thread)
    : option (Process * list thread) :=
  t ← c.2 !! i;
  '(t', p') ← advance t c.1;
  Some (p', <[i := t']> c.2).

(** An execution under a schedule, the sequence of the threads picked. *)
Fixpoint run (schedule : list nat) (c : Process * list thread)
    : option (Process * list thread) :=
  match schedule with
  | [] => Some c
  | i :: later => step i c ≫= run later
  end.

Definition is_finished (t : thread) : bool :=
  match t with finished _ => true | _ => false end.

(** ** The text of a line *)

(** What the inserter of a value does to a stream without error bit, when
    it returns: the characters it writes and whether it leaves an error
    bit. *)
Definition formatted (v : value) : wstring * bool :=
  match v with
  | Value v =>
      match insertion v with
      | yields f => f
      | raises _ => ([], false)
      end
  end.

Definition text_of (v : value) : wstring := (formatted v).1.

(** The inserter of the value returns and leaves no error bit. *)
Definition clean (v : value) : bool :=
  match v with
  | Value v =>
      match insertion v with
      | yields (_, sets) => negb sets
      | raises _ => false
      end
  end.

(** The values of a statement as they come out of a stream without error
    bit: the texts of the values up to and including the first whose
    inserter leaves an error bit, and whether none did. *)
Fixpoint appended (values : list value) : wstring * bool :=
  match values with
  | [] => ([], true)
  | v :: rest =>
      if (formatted v).2 then ((formatted v).1, false)
      else ((formatted v).1 ++ (appended rest).1, (appended rest).2)
  end.

(** The values and then the terminator: [std::endl] is written when the
    line was constructed with [newline] and no error bit is set. *)
Definition rest_of_line (newline : bool) (values : list value) : wstring :=
  (appended values).1 ++ (if newline && (appended values).2 then endl else []).

(** The outputs of the prefix generators in the order of the list, up to
    the first generator that throws, and what that one throws. *)
Fixpoint prefix_outputs (w : World) (prefixes : list PrefixFunction)
    : wstring * option exn :=
  match prefixes with
  | [] => ([], None)
  | prefix :: rest =>
      match prefix w with
      | yields text =>
          (text ++ (prefix_outputs w rest).1, (prefix_outputs w rest).2)
      | raises e => ([], Some e)
      end
  end.

(** The complete text of the line of a statement while a valid sink and the
    generators [prefixes] are installed: the prefixes, the severity tag, the
    separator, the values and the terminator. Where construction fails the
    line is shorter: empty when an allocation fails; the prefixes written so
    far when a generator throws, followed by the values and the terminator
    if what it throws is a [std::exception]; without tag and separator when
    the severity is not in the table. *)
Definition written (prefixes : list PrefixFunction) (s : statement)
    : wstring :=
  match operator_new (stmt_world s) with
  | raises _ => []
  | yields _ =>
      let before := (prefix_outputs (stmt_world s) prefixes).1 in
      let values := rest_of_line (stmt_newline s) (stmt_values s) in
      match (prefix_outputs (stmt_world s) prefixes).2 with
      | Some other_exception => before
      | Some (std_exception _) => before ++ values
      | None =>
          match severity_map !! stmt_severity s with
          | Some tag => before ++ tag ++ L": " ++ values
          | None => before ++ values
          end
      end
  end.

(** What the destructor of [this] will hand to the sink once the values
    [rest] have been inserted. *)
Definition to_emit (this : SimpleLogger) (rest : list value) : wstring :=
  match out_sync_stream_ this with
  | None => []
  | Some s =>
      pending s ++ (if error s then [] else rest_of_line (newline_ this) rest)
  end.

(** The statement a thread executes, and the statements of the threads
    that are through. *)
Definition program (t : thread) : statement :=
  match t with
  | ready s | active s _ _ | finished s => s
  end.

Definition through (ts : list thread) : list statement :=
  omap (fun t => match t with finished s => Some s | _ => None end) ts.

(** The handle of an object that left the constructor while the sink was at
    [sink]: none, or a valid one on that sink. *)
Definition handle_on (sink : ptr) (this : SimpleLogger) : Prop :=
  match out_sync_stream_ this with
  | Some os => wrapped os = sink /\ out_sync_stream_valid_ this = true
  | None => out_sync_stream_valid_ this = false
  end.

(** An active thread still has to deliver exactly the rest of its line. *)
Definition on_its_line (p : Process) (sink : ptr) (t : thread) : Prop :=
  match t with
  | active s this rest =>
      handle_on sink this /\
      to_emit this rest = written (prefix_function_list_ p) s
  | _ => True
  end.

(** The state of an execution started in [p0], with the sink [o] at [l]:
    the registry is as it was, every active thread is on its line, and the
    sink holds, after what it held at the start, the lines of the threads
    that are through, one after the other. *)
Definition lines_so_far (p0 : Process) (l : ptr) (o : wostream)
    (c : Process * list thread) : Prop :=
  prefix_function_list_ c.1 = prefix_function_list_ p0 /\
  out_stream_ c.1 = Some l /\
  out_stream_valid_ c.1 = true /\
  Forall (on_its_line p0 l) c.2 /\
  exists order,
    order ≡ₚ through c.2 /\
    heap c.1 !! l
    = Some (live {| rdbuf := rdbuf o
                             ++ concat (written (prefix_function_list_ p0)
                                          <$> order);
                    good := good o |}).

(** ** The registry *)

(** The stream the registry currently owns. *)
Definition sink (p : Process) : option wostream :=
  l ← out_stream_ p;
  match heap p !! l with
  | Some (live o) => Some o
  | _ => None
  end.

(** [out_stream_valid_] is true only if a sink is present. *)
Definition registry_invariant (p : Process) : Prop :=
  out_stream_valid_ p = true -> is_Some (sink p).

(** The transitions of the process state: the member functions of the class
    that touch it. *)
Inductive transition : Process -> Process -> Prop :=
| transition_SetOstream out_stream p :
    transition p (SetOstream out_stream p)
| transition_SetPrefixList prefix_list p :
    transition p (SetPrefixList prefix_list p)
| transition_constructor severity newline w p this p' :
    constructor severity newline w p = Returns (this, p') ->
    transition p p'
| transition_constructor_throws severity newline w p e p' :
    constructor severity newline w p = Throws e p' ->
    transition p p'
| transition_destructor this p p' :
    destructor this p = Returns p' ->
    transition p p'.

Inductive reachable : Process -> Prop :=
| reachable_initial : reachable initial
| reachable_transition p p' :
    reachable p -> transition p p' -> reachable p'.

(** ** Example inputs *)

(** An environment with memory to spare, at time 0. *)
Definition calm : World :=
  {| system_clock := 0; table_new := yields tt; adapter_new := yields tt |}.

(** An environment where the free store serves the table and is exhausted
    by it, and one where it is exhausted from the start. *)
Definition exhausted : World :=
  {| system_clock := 0; table_new := yields tt;
     adapter_new := raises (std_exception "std::bad_alloc"%string) |}.
Definition starved : World :=
  {| system_clock := 0;
     table_new := raises (std_exception "std::bad_alloc"%string);
     adapter_new := raises (std_exception "std::bad_alloc"%string) |}.

(** An empty in-memory stream in good state, and one in failed state. *)
Definition memory_stream : wostream := {| rdbuf := []; good := true |}.
Definition failed_stream : wostream := {| rdbuf := []; good := false |}.

(** A prefix generator in the manner of main.cpp's [DateTimePrefix]: the
    clock reading and a blank. *)
Definition clock_prefix : PrefixFunction :=
  fun w =>
    yields (L (NilZero.string_of_int (Z.to_int (Z.of_nat (system_clock w))))
            ++ L" ").

(** Prefix generators that throw. *)
Definition failing_prefix : PrefixFunction :=
  fun _ => raises (std_exception "prefix failed"%string).
Definition alien_prefix : PrefixFunction :=
  fun _ => raises other_exception.

(** The process after [SetOstream] has installed an empty stream in good
    state. *)
Definition logging : Process := SetOstream (Some memory_stream) initial.

(** Values whose inserter returns, the values a thread has still to
    insert, and the member function calls it has still to make. *)
Definition inserts (v : value) : bool :=
  match v with
  | Value v => match insertion v with yields _ => true | raises _ => false end
  end.

Definition to_insert (t : thread) : list value :=
  match t with
  | ready s => stmt_values s
  | active _ _ rest => rest
  | finished _ => []
  end.

Definition calls_left (t : thread) : nat :=
  match t with
  | ready s => S (S (length (stmt_values s)))
  | active _ _ rest => S (length rest)
  | finished _ => 0
  end.

(** The process after [SetPrefixList] has also installed the clock
    prefix. *)
Definition stamping : Process := SetPrefixList [clock_prefix] logging.

(** Two statements for two threads, the first at time 1 and the second at
    time 2, and a schedule that alternates between the threads from the
    first constructor to the last destructor. *)
Definition racing : list statement :=
  [ {| stmt_severity := kDebug; stmt_newline := true;
       stmt_values := [Value (L"a"); Value 1%Z];
       stmt_world := {| system_clock := 1; table_new := yields tt;
                        adapter_new := yields tt |} |};
    {| stmt_severity := kInfo; stmt_newline := false;
       stmt_values := [Value (L"b")];
       stmt_world := {| system_clock := 2; table_new := yields tt;
                        adapter_new := yields tt |} |} ].

Definition alternating : list nat := [0; 1; 0; 1; 0; 1; 0].

(** The process after the race: the second line came first. *)
Definition after_race : Process :=
  {| heap := [live {| rdbuf := L"2 INFO: b" ++ L"1 DEBUG: a1" ++ endl;
                      good := true |}];
     prefix_function_list_ := [clock_prefix];
     out_stream_ := Some 0;
     out_stream_valid_ := true;
     cerr := EmptyString |}.

(** The same race one call before its end: the second thread is through
    and the first has its destructor still to run. *)
Definition before_last_call : list nat := [0; 1; 0; 1; 0; 1].

Definition during_race : Process :=
  {| heap := [live {| rdbuf := L"2 INFO: b"; good := true |}];
     prefix_function_list_ := [clock_prefix];
     out_stream_ := Some 0;
     out_stream_valid_ := true;
     cerr := EmptyString |}.

(** ** Exceptions the constructor can handle *)

(** A call that returns or throws a [std::exception]. *)
Definition catchable {A} (c : call A) : Prop := c <> raises other_exception.

(** The statement meets no exception that leaves its constructor while the
    list [prefixes] is installed: the table is allocated, and neither the
    allocation of the stream nor a generator throws anything but a
    [std::exception]. *)
Definition handled (prefixes : list PrefixFunction) (s : statement) : Prop :=
  table_new (stmt_world s) = yields tt /\
  catchable (adapter_new (stmt_world s)) /\
  Forall (fun prefix : PrefixFunction => catchable (prefix (stmt_world s)))
         prefixes.

(** ** Ownership of the streams *)

(** The only stream alive is the one [out_stream_] points to. *)
Definition owns_every_stream (p : Process) : Prop :=
  forall (l : ptr) o, heap p !! l = Some (live o) -> out_stream_ p = Some l.

(** ** main.cpp *)

(** A [std::wofstream] once constructed: the stream, and the answer of
    [fail()]. *)
Record wofstream : Type := {
  file : wostream;
  fail : bool
}.

(** A [double], by the characters the stream formats it to; the conversion
    is floating point arithmetic and stays outside. *)
Record double : Type := { digits : wstring }.
#[global] Instance double_insertable : Insertable double :=
  fun d => yields (digits d, false).

(** The try block of [main]: the allocation of the file stream, served when
    the free store serves the whole block ([operator_new]), the test of
    [fail()], and the two setters. The stream of a failed attempt is local
    to the block and never reaches the registry. [DateTimePrefix] formats
    the local time with the C library and is a parameter. *)
Definition main_try (w : World) (opened : wofstream)
    (DateTimePrefix : PrefixFunction) (p : Process) : Process * call unit :=
  match operator_new w with
  | yields _ =>
      if fail opened
      then (p, raises (std_exception "failed to open file"))
      else (SetPrefixList [DateTimePrefix] (SetOstream (Some (file opened)) p),
            yields tt)
  | raises e => (p, raises e)
  end.

(** The five logging statements of [main]; [env i] is the environment of
    the [i]-th. *)
Definition main_statements (env : nat -> World) (pi : double)
    : list statement :=
  [ {| stmt_severity := kDebug; stmt_newline := true;
       stmt_values := [Value (L"Line "); Value 1%Z]; stmt_world := env 1 |};
    {| stmt_severity := kInfo; stmt_newline := true;
       stmt_values := [Value (L"Line "); Value 2%Z]; stmt_world := env 2 |};
    {| stmt_severity := kWarning; stmt_newline := true;
       stmt_values := [Value (L"Pi = "); Value pi]; stmt_world := env 3 |};
    {| stmt_severity := kError; stmt_newline := true;
       stmt_values := [Value (L"Divide by zero")]; stmt_world := env 4 |};
    {| stmt_severity := kCritical; stmt_newline := true;
       stmt_values := [Value (L"Line "); Value (L"End")];
       stmt_world := env 5 |} ].

(** [int main()], from the state at program start to the end of its body;
    [env 0] is the environment of the try block. *)
Definition main (env : nat -> World) (opened : wofstream)
    (DateTimePrefix : PrefixFunction) (pi : double) : result Process :=
  match main_try (env 0) opened DateTimePrefix initial with
  | (p, yields _) => log_statements (main_statements env pi) p
  | (p, raises (std_exception what)) =>
      log_statements (main_statements env pi) (report what p)
  | (p, raises e) => Throws e p
  end.

(** ** Further example inputs *)

(** The clock shows [i] when the [i]-th statement of [main] runs. *)
Definition ticking (i : nat) : World :=
  {| system_clock := i; table_new := yields tt; adapter_new := yields tt |}.

(** The free store serves the try block of [main] and nothing after it. *)
Definition famished (i : nat) : World :=
  match i with 0 => calm | _ => starved end.

Definition log_file : wofstream := {| file := memory_stream; fail := false |}.
Definition no_log_file : wofstream := {| file := failed_stream; fail := true |}.

Definition pi_literal : double := {| digits := L"3.14159" |}.

(** * Properties *)

(** ** The free store and the table *)

Lemma at_in_range (a : list wstring) (i : nat) (x : wstring) :
  a !! i = Some x -> at_ a i = yields x.
Proof. unfold at_. by intros ->. Qed.

Lemma at_out_of_range (a : list wstring) (i : nat) :
  length a <= i -> at_ a i = raises (std_exception out_of_range_what).
Proof. unfold at_. intros Hi. by rewrite (lookup_ge_None_2 a i Hi). Qed.

Lemma at_raises (a : list wstring) (i : nat) e :
  at_ a i = raises e -> e = std_exception out_of_range_what.
Proof. unfold at_. destruct (a !! i); congruence. Qed.

Lemma operator_new_yields w :
  operator_new w = yields tt ->
  table_new w = yields tt /\ adapter_new w = yields tt.
Proof.
  unfold operator_new. destruct (table_new w) as [[]|e]; [|done].
  by destruct (adapter_new w) as [[]|e].
Qed.

(** ** The try block *)

Lemma put_put a b s : put b (put a s) = put (a ++ b) s.
Proof.
  unfold put, write. destruct (error s) eqn:Herr; simpl.
  - by rewrite Herr.
  - by rewrite app_assoc.
Qed.

(** The loop over the generators writes their outputs up to the first that
    throws. *)
Lemma for_each_prefix_outputs w prefixes nl sink text v :
  for_each_prefix w prefixes
    {| newline_ := nl;
       out_sync_stream_ :=
         Some {| wrapped := sink; pending := text; error := false |};
       out_sync_stream_valid_ := v |}
  = ({| newline_ := nl;
        out_sync_stream_ :=
          Some {| wrapped := sink;
                  pending := text ++ (prefix_outputs w prefixes).1;
                  error := false |};
        out_sync_stream_valid_ := v |},
     match (prefix_outputs w prefixes).2 with
     | None => yields tt
     | Some e => raises e
     end).
Proof.
  revert text. induction prefixes as [|prefix rest IH]; intros text.
  - simpl. by rewrite app_nil_r.
  - cbn [for_each_prefix prefix_outputs].
    unfold mbind, block_bind, invoke at 1.
    destruct (prefix w) as [out|e]; [|simpl; by rewrite app_nil_r].
    cbn [insert fmap option_fmap option_map newline_ out_sync_stream_
      out_sync_stream_valid_ fst snd].
    unfold put, write; cbn [error wrapped pending].
    by rewrite IH, app_assoc.
Qed.

(** The try block in one piece: what it leaves in the object, and how it
    ends. *)
Lemma try_block_text severity newline w p sink :
  try_block severity w p sink (fresh newline)
  = match adapter_new w with
    | raises e => (fresh newline, raises e)
    | yields _ =>
        let before := (prefix_outputs w (prefix_function_list_ p)).1 in
        let handle text :=
          {| newline_ := newline;
             out_sync_stream_ :=
               Some {| wrapped := sink; pending := text; error := false |};
             out_sync_stream_valid_ := true |} in
        match (prefix_outputs w (prefix_function_list_ p)).2 with
        | Some e => (handle before, raises e)
        | None =>
            match at_ severity_map severity with
            | yields tag => (handle (before ++ tag ++ L": "), yields tt)
            | raises e => (handle before, raises e)
            end
        end
    end.
Proof.
  unfold try_block, mbind, block_bind, make_unique, fresh.
  destruct (adapter_new w) as [[]|e]; [|done].
  cbn [set_valid newline_ out_sync_stream_ out_sync_stream_valid_].
  rewrite for_each_prefix_outputs. cbn [app].
  destruct (prefix_outputs w (prefix_function_list_ p)).2 as [e|]; [done|].
  unfold invoke. destruct (at_ severity_map severity) as [tag|e]; [|done].
  unfold insert, put, write; simpl. by rewrite <- !app_assoc.
Qed.

Lemma prefix_outputs_yields w prefixes outputs :
  Forall2 (fun (prefix : PrefixFunction) text => prefix w = yields text)
          prefixes outputs ->
  prefix_outputs w prefixes = (concat outputs, None).
Proof.
  induction 1 as [|prefix text prefixes outputs Hprefix _ IH]; [done|].
  cbn [prefix_outputs concat]. by rewrite Hprefix, IH.
Qed.

Lemma prefix_outputs_stops w before (failing : PrefixFunction) after
    outputs e :
  Forall2 (fun (prefix : PrefixFunction) text => prefix w = yields text)
          before outputs ->
  failing w = raises e ->
  prefix_outputs w (before ++ failing :: after) = (concat outputs, Some e).
Proof.
  intros Hall Hfail.
  induction Hall as [|prefix text before outputs Hprefix _ IH].
  - cbn [app prefix_outputs]. by rewrite Hfail.
  - cbn [app prefix_outputs concat]. by rewrite Hprefix, IH.
Qed.

(** The statements of the try block before the severity lookup, when the
    allocations succeed and the generators return. *)
Lemma try_block_prefixes severity newline w p sink outputs :
  operator_new w = yields tt ->
  Forall2 (fun (prefix : PrefixFunction) text => prefix w = yields text)
          (prefix_function_list_ p) outputs ->
  try_block severity w p sink (fresh newline)
  = match at_ severity_map severity with
    | yields tag =>
        ({| newline_ := newline;
            out_sync_stream_ :=
              Some {| wrapped := sink;
                      pending := concat outputs ++ tag ++ L": ";
                      error := false |};
            out_sync_stream_valid_ := true |}, yields tt)
    | raises e =>
        ({| newline_ := newline;
            out_sync_stream_ :=
              Some {| wrapped := sink; pending := concat outputs;
                      error := false |};
            out_sync_stream_valid_ := true |}, raises e)
    end.
Proof.
  intros Hnew Hall. apply operator_new_yields in Hnew as [_ Hnew].
  rewrite try_block_text, Hnew, (prefix_outputs_yields _ _ _ Hall).
  reflexivity.
Qed.

(** The two ways the try block can leave the object: untouched, when the
    allocation throws, or with a valid handle on the sink, without error
    bit. *)
Lemma try_block_cases severity w p sink newline this c :
  try_block severity w p sink (fresh newline) = (this, c) ->
  (exists e, adapter_new w = raises e /\ this = fresh newline /\ c = raises e)
  \/ (adapter_new w = yields tt /\
      exists text,
        this = {| newline_ := newline;
                  out_sync_stream_ :=
                    Some {| wrapped := sink; pending := text;
                            error := false |};
                  out_sync_stream_valid_ := true |}).
Proof.
  rewrite try_block_text. destruct (adapter_new w) as [[]|e].
  - intros Hblock. right. split; [done|]. cbn zeta in Hblock.
    destruct (prefix_outputs w (prefix_function_list_ p)).2 as [e|].
    + injection Hblock as <- _. eauto.
    + destruct (at_ severity_map severity) as [tag|e];
        injection Hblock as <- _; eauto.
  - intros [= <- <-]. left. eauto.
Qed.

(** C2: with a valid sink and a severity [s] in 0..4, the constructor writes
    the output of each installed prefix generator, invoked on the
    environment of the call in the order of registration, then the tag at
    index [s] of the table DEBUG, INFO, WARNING, ERROR, CRITICAL, then the
    separator [": "]. *)
Theorem constructor_writes_prefixes_tag_separator
    severity newline w p sink o (tag : wstring) outputs :
  out_stream_valid_ p = true ->
  out_stream_ p = Some sink ->
  heap p !! sink = Some (live o) ->
  [L"DEBUG"; L"INFO"; L"WARNING"; L"ERROR"; L"CRITICAL"] !! severity
    = Some tag ->
  operator_new w = yields tt ->
  Forall2 (fun (prefix : PrefixFunction) text => prefix w = yields text)
          (prefix_function_list_ p) outputs ->
  constructor severity newline w p
  = Returns ({| newline_ := newline;
                out_sync_stream_ :=
                  Some {| wrapped := sink;
                          pending := concat outputs ++ tag ++ L": ";
                          error := false |};
                out_sync_stream_valid_ := true |}, p).
Proof.
  intros Hvalid Hsink Hlive Htag Hnew Hall. unfold constructor.
  rewrite (proj1 (operator_new_yields w Hnew)), Hvalid, Hsink, Hlive.
  rewrite (try_block_prefixes _ _ _ _ _ _ Hnew Hall).
  by rewrite (at_in_range severity_map severity tag Htag).
Qed.

(** ** Chains of insertions *)

Lemma chain_without_handle this values :
  out_sync_stream_valid_ this = false -> chain this values = Returns this.
Proof.
  intros Hvalid. induction values as [|[T HT v] rest IH]; [done|].
  cbn [chain]. unfold operator_shl. by rewrite Hvalid.
Qed.

(** ** The heap under [emit] *)

Lemma emit_registry s p p' :
  emit s p = Some p' ->
  prefix_function_list_ p' = prefix_function_list_ p /\
  out_stream_ p' = out_stream_ p /\
  out_stream_valid_ p' = out_stream_valid_ p /\
  cerr p' = cerr p /\
  length (heap p') = length (heap p).
Proof.
  unfold emit. destruct (heap p !! wrapped s) as [[o|]|]; [|done..].
  intros [= <-]; simpl. by rewrite length_insert.
Qed.

Lemma emit_live s p p' (l : ptr) o :
  emit s p = Some p' ->
  heap p !! l = Some (live o) ->
  heap p' !! l
  = Some (live (if decide (l = wrapped s)
                then {| rdbuf := rdbuf o ++ pending s; good := good o |}
                else o)).
Proof.
  unfold emit. destruct (heap p !! wrapped s) as [[o'|]|] eqn:Hs; [|done..].
  intros [= <-] Hl; simpl. case_decide as Heq.
  - subst l. rewrite Hs in Hl. injection Hl as ->.
    apply list_lookup_insert_eq. by eapply lookup_lt_Some.
  - by rewrite list_lookup_insert_ne.
Qed.

(** ** Severities outside the enumeration *)

(** C4: with a valid sink and a severity outside 0..4, the bounds-checked
    lookup in the table throws [std::out_of_range], the constructor catches
    it and returns normally (it neither throws nor has undefined
    behaviour), the diagnostic is written to [std::cerr], and the line goes
    on without a severity tag: only the prefixes are pending and the handle
    stays valid. *)
Theorem out_of_range_severity_is_caught
    severity newline w p sink o outputs :
  4 < severity ->
  out_stream_valid_ p = true ->
  out_stream_ p = Some sink ->
  heap p !! sink = Some (live o) ->
  operator_new w = yields tt ->
  Forall2 (fun (prefix : PrefixFunction) text => prefix w = yields text)
          (prefix_function_list_ p) outputs ->
  at_ severity_map severity = raises (std_exception out_of_range_what) /\
  constructor severity newline w p
  = Returns ({| newline_ := newline;
                out_sync_stream_ :=
                  Some {| wrapped := sink; pending := concat outputs;
                          error := false |};
                out_sync_stream_valid_ := true |},
             report out_of_range_what p) /\
  cerr (report out_of_range_what p)
  = (cerr p ++ "caught exception: " ++ out_of_range_what
            ++ String "010" EmptyString)%string.
Proof.
  intros Hrange Hvalid Hsink Hlive Hnew Hall.
  assert (Hat : at_ severity_map severity
                = raises (std_exception out_of_range_what)).
  { apply at_out_of_range. simpl. lia. }
  split; [exact Hat|]. split; [|reflexivity].
  unfold constructor.
  rewrite (proj1 (operator_new_yields w Hnew)), Hvalid, Hsink, Hlive.
  by rewrite (try_block_prefixes _ _ _ _ _ _ Hnew Hall), Hat.
Qed.

(** ** What the constructor returns *)

Lemma constructor_returns severity newline w p this p1 :
  constructor severity newline w p = Returns (this, p1) ->
  (p1 = p \/ exists what, p1 = report what p) /\
  (this = fresh newline \/
   exists sink text,
     out_stream_valid_ p = true /\ out_stream_ p = Some sink /\
     this = {| newline_ := newline;
               out_sync_stream_ :=
                 Some {| wrapped := sink; pending := text; error := false |};
               out_sync_stream_valid_ := true |}).
Proof.
  unfold constructor. destruct (table_new w) as [[]|e]; [|done].
  destruct (out_stream_valid_ p); [|intros [= <- <-]; eauto].
  destruct (out_stream_ p) as [sink|]; [|done].
  destruct (heap p !! sink) as [[o|]|]; [|done..].
  destruct (try_block severity w p sink (fresh newline)) as [this0 c] eqn:Hb.
  apply try_block_cases in Hb as [(e & _ & -> & ->)|(_ & text & ->)].
  - destruct e as [what|]; [intros [= <- <-]; eauto|].
    simpl. done.
  - destruct c as [[]|[what|]].
    + intros [= <- <-]. split; [eauto|]. right. by exists sink, text.
    + intros [= <- <-]. split; [eauto|]. right. by exists sink, text.
    + simpl. by destruct (emit _ p).
Qed.

Lemma constructor_returns_table severity newline w p this p1 :
  constructor severity newline w p = Returns (this, p1) ->
  table_new w = yields tt.
Proof.
  unfold constructor. by destruct (table_new w) as [[]|e].
Qed.

(** ** Insertions and error bits *)

Lemma appended_clean values :
  Forall (fun v => clean v = true) values ->
  appended values = (concat (text_of <$> values), true).
Proof.
  induction 1 as [|[T HT v] rest Hv _ IH]; [done|].
  cbn [appended fmap list_fmap concat]. rewrite IH.
  unfold text_of, formatted. simpl in Hv.
  destruct (insertion v) as [[text []]|e]; done.
Qed.

Lemma appended_stops before v after :
  Forall (fun v => clean v = true) before ->
  (formatted v).2 = true ->
  appended (before ++ v :: after)
  = (concat (text_of <$> before) ++ text_of v, false).
Proof.
  intros Hclean Hsets.
  induction Hclean as [|[T HT u] rest Hu _ IH].
  - cbn [app appended]. by rewrite Hsets.
  - cbn [app appended fmap list_fmap concat]. rewrite IH.
    unfold text_of, formatted. simpl in Hu.
    destruct (insertion u) as [[text []]|e]; try done.
    simpl. by rewrite app_assoc.
Qed.

(** A chain of insertions that returns, on a valid handle: nothing changes
    when an error bit is set, otherwise the texts arrive up to and including
    the first whose inserter sets one. *)
Lemma chain_appended nl s values this' :
  chain {| newline_ := nl; out_sync_stream_ := Some s;
           out_sync_stream_valid_ := true |} values = Returns this' ->
  this' = {| newline_ := nl;
             out_sync_stream_ :=
               Some (if error s then s
                     else {| wrapped := wrapped s;
                             pending := pending s ++ (appended values).1;
                             error := negb (appended values).2 |});
             out_sync_stream_valid_ := true |}.
Proof.
  revert s. induction values as [|[T HT v] rest IH]; intros s.
  - intros [= <-]. destruct s as [sink text []]; simpl; [done|].
    by rewrite app_nil_r.
  - cbn [chain]. unfold operator_shl.
    cbn [out_sync_stream_valid_ out_sync_stream_ newline_].
    destruct (insertion v) as [[text sets]|e] eqn:Hv; [|done].
    assert (Hf : formatted (Value v) = (text, sets)).
    { unfold formatted. by rewrite Hv. }
    intros Hrest. rewrite (IH _ Hrest). unfold write.
    destruct (error s) eqn:Herr; [by rewrite Herr|].
    cbn [appended error wrapped pending]. rewrite Hf. cbn [fst snd].
    destruct sets; simpl; [done|]. by rewrite app_assoc.
Qed.

(** The destructor after such a chain, on a stream that exists. *)
Lemma destructor_after_chain nl s values this' q o :
  error s = false ->
  chain {| newline_ := nl; out_sync_stream_ := Some s;
           out_sync_stream_valid_ := true |} values = Returns this' ->
  heap q !! wrapped s = Some (live o) ->
  exists q',
    destructor this' q = Returns q' /\
    emit {| wrapped := wrapped s;
            pending := pending s ++ rest_of_line nl values;
            error := false |} q = Some q'.
Proof.
  intros Herr Hchain Hlive. apply chain_appended in Hchain as ->.
  rewrite Herr. unfold destructor, reset, emit, rest_of_line, put, write.
  cbn [newline_ out_sync_stream_ out_sync_stream_valid_ error wrapped
    pending]. rewrite andb_true_r, Hlive.
  destruct nl, (appended values).2; cbn -[L endl];
    rewrite ?Hlive, ?app_nil_r, <- ?app_assoc; eauto.
Qed.

(** ** No valid sink *)

(** C5, at the failing input: no sink is installed and the free store
    cannot serve the strings of the member [severity_map]. The constructor
    of the line throws [std::bad_alloc] to the caller, and so does the
    logging statement. *)
Theorem constructor_throws_without_sink :
  out_stream_ initial = None /\
  out_stream_valid_ initial = false /\
  constructor kDebug true starved initial
  = Throws (std_exception "std::bad_alloc") initial /\
  log_statement kDebug true [Value (L"x")] starved initial
  = Throws (std_exception "std::bad_alloc") initial.
Proof. repeat split. Qed.

Lemma log_statements_without_sink stmts p :
  out_stream_valid_ p = false ->
  Forall (fun s => table_new (stmt_world s) = yields tt) stmts ->
  log_statements stmts p = Returns p.
Proof.
  intros Hvalid Htable. induction Htable as [|s rest Hs _ IH]; [done|].
  cbn [log_statements]. unfold log_statement, constructor.
  rewrite Hs, Hvalid, chain_without_handle by done.
  unfold destructor, fresh; simpl. by rewrite andb_false_r.
Qed.

(** ** The line terminator *)

(** C6, as stated, fails once an insertion has left an error bit: a line
    constructed with the default [newline = true], into which a null
    [std::wstreambuf*] is inserted, has a valid handle and is destroyed
    without a terminator; the text inserted after the null pointer is lost
    as well. *)
Lemma terminator_lost_after_error_bit :
  exists this p1 this' q,
    constructor kDebug true calm logging = Returns (this, p1) /\
    out_sync_stream_valid_ this = true /\
    chain this [Value null_wstreambuf; Value (L"x")] = Returns this' /\
    out_sync_stream_valid_ this' = true /\
    newline_ this' = true /\
    destructor this' p1 = Returns q /\
    sink q = Some {| rdbuf := L"DEBUG: "; good := true |}.
Proof.
  do 4 eexists. split; [reflexivity|]. split; [reflexivity|].
  split; [reflexivity|]. split; [reflexivity|]. split; [reflexivity|].
  split; reflexivity.
Qed.

(** C6, amended: a line builder that left its constructor with a valid
    handle, once its values are inserted, is destroyed by handing to its
    stream, while that stream exists, what the constructor left pending and
    then: if no inserter left an error bit, the text of all the values and
    one [endl] if it was constructed with [newline = true], nothing after
    the values if it was constructed with [newline = false]; if an inserter
    left an error bit, the text of the values up to and including that one,
    and neither a later value nor a terminator. *)
Theorem destructor_writes_terminator
    severity newline w p this p1 s values this' q o :
  constructor severity newline w p = Returns (this, p1) ->
  out_sync_stream_valid_ this = true ->
  out_sync_stream_ this = Some s ->
  chain this values = Returns this' ->
  heap q !! wrapped s = Some (live o) ->
  exists q',
    destructor this' q = Returns q' /\
    (Forall (fun v => clean v = true) values ->
     heap q' !! wrapped s
     = Some (live {| rdbuf := rdbuf o ++ pending s
                              ++ concat (text_of <$> values)
                              ++ (if newline then endl else []);
                     good := good o |})) /\
    (forall before v after,
        values = before ++ v :: after ->
        Forall (fun v => clean v = true) before ->
        (formatted v).2 = true ->
        heap q' !! wrapped s
        = Some (live {| rdbuf := rdbuf o ++ pending s
                                 ++ concat (text_of <$> before) ++ text_of v;
                        good := good o |})).
Proof.
  intros Hctor Hvalid Hs Hchain Hlive.
  apply constructor_returns in Hctor as [_ [->|(sink & text & _ & _ & ->)]];
    [done|].
  simpl in Hs. injection Hs as <-. simpl in Hlive.
  destruct (destructor_after_chain newline
              {| wrapped := sink; pending := text; error := false |}
              values this' q o eq_refl Hchain Hlive)
    as (q' & Hdtor & Hemit).
  exists q'. split; [done|].
  pose proof (emit_live _ _ _ _ _ Hemit Hlive) as Hq'.
  rewrite decide_True in Hq' by done. cbn [wrapped pending] in *.
  unfold rest_of_line in Hq'. split.
  - intros Hclean. rewrite Hq', (appended_clean _ Hclean).
    cbn [fst snd]. by rewrite andb_true_r, <- ?app_assoc.
  - intros before v after -> Hclean Hsets.
    rewrite Hq', (appended_stops _ _ _ Hclean Hsets).
    cbn [fst snd]. by rewrite andb_false_r, app_nil_r, <- ?app_assoc.
Qed.

(** ** The registry invariant *)

Lemma sink_SetOstream out_stream p : sink (SetOstream out_stream p) = out_stream.
Proof.
  unfold sink, SetOstream. destruct out_stream as [s|]; simpl; [|done].
  by rewrite lookup_app_r, Nat.sub_diag.
Qed.

Lemma sink_preserved p p' :
  out_stream_ p' = out_stream_ p ->
  (forall (l : ptr) o, heap p !! l = Some (live o) ->
                       exists o', heap p' !! l = Some (live o')) ->
  is_Some (sink p) -> is_Some (sink p').
Proof.
  unfold sink. intros -> Hheap. destruct (out_stream_ p) as [l|]; simpl;
    [|by intros []].
  destruct (heap p !! l) as [[o|]|] eqn:Hl; [|by intros []..].
  destruct (Hheap l o Hl) as [o' ->]. eauto.
Qed.

Lemma reset_preserves_invariant os p p' :
  reset os p = Some p' -> registry_invariant p -> registry_invariant p'.
Proof.
  destruct os as [s|]; simpl; [|by intros [= <-]].
  intros Hemit Hinv Hvalid.
  destruct (emit_registry _ _ _ Hemit) as (_ & Hout & Hv & _).
  rewrite Hv in Hvalid. apply (sink_preserved p); [done| |by apply Hinv].
  intros l o Hl. eexists. by eapply emit_live.
Qed.

(** A constructor that throws has either done nothing or handed over what
    was pending. *)
Lemma constructor_throws severity newline w p e p' :
  constructor severity newline w p = Throws e p' ->
  p' = p \/ exists os, reset os p = Some p'.
Proof.
  unfold constructor. destruct (table_new w) as [[]|e0];
    [|intros [= _ <-]; by left].
  destruct (out_stream_valid_ p); [|done].
  destruct (out_stream_ p) as [l|]; [|done].
  destruct (heap p !! l) as [[o|]|]; [|done..].
  destruct (try_block severity w p l _) as [this [[]|[what|]]]; [done..|].
  destruct (reset _ p) as [p1|] eqn:Hreset; [|done].
  intros [= _ <-]. eauto.
Qed.

Lemma transition_preserves_invariant p p' :
  transition p p' -> registry_invariant p -> registry_invariant p'.
Proof.
  intros [out_stream p0|prefix_list p0|severity newline w p0 this p0' Hctor
         |severity newline w p0 e p0' Hctor|this p0 p0' Hdtor] Hinv.
  - intros Hvalid. rewrite sink_SetOstream.
    destruct out_stream; [eauto|done].
  - exact Hinv.
  - apply constructor_returns in Hctor as [[->|[what ->]] _]; exact Hinv.
  - apply constructor_throws in Hctor as [->|[os Hreset]]; [done|].
    by eapply reset_preserves_invariant.
  - revert Hdtor. unfold destructor.
    destruct (newline_ this && out_sync_stream_valid_ this).
    + destruct (out_sync_stream_ this) as [s|]; [|done].
      destruct (reset _ p0) as [p1|] eqn:Hreset; [|done].
      intros [= <-]. by eapply reset_preserves_invariant.
    + destruct (reset _ p0) as [p1|] eqn:Hreset; [|done].
      intros [= <-]. by eapply reset_preserves_invariant.
Qed.

(** C8: in every state the process can reach through the member functions,
    [out_stream_valid_] is true only if a sink is present; and from such a
    state [SetOstream], which always returns, makes its argument the sink
    and sets [out_stream_valid_] to: the argument is present and its
    [good()] is true at that time. An absent or failed stream leaves the
    flag false. *)
Theorem registry_invariant_holds p :
  reachable p ->
  registry_invariant p /\
  forall out_stream,
    sink (SetOstream out_stream p) = out_stream /\
    out_stream_valid_ (SetOstream out_stream p)
    = match out_stream with Some s => good s | None => false end /\
    registry_invariant (SetOstream out_stream p).
Proof.
  intros Hreach.
  assert (Hinv : registry_invariant p).
  { induction Hreach as [|p p' _ IH Hstep]; [done|].
    by eapply transition_preserves_invariant. }
  split; [exact Hinv|]. intros out_stream. split; [apply sink_SetOstream|].
  split; [by destruct out_stream|].
  eapply transition_preserves_invariant; [constructor|exact Hinv].
Qed.

(** ** Frame properties of the setters *)

(** C10: [SetPrefixList] leaves the sink, its validity flag and every
    stream as they are; [SetOstream] leaves the list of prefix generators
    as it is. *)
Theorem setters_change_their_own_fields p :
  (forall prefix_list,
      out_stream_ (SetPrefixList prefix_list p) = out_stream_ p /\
      out_stream_valid_ (SetPrefixList prefix_list p) = out_stream_valid_ p /\
      heap (SetPrefixList prefix_list p) = heap p /\
      cerr (SetPrefixList prefix_list p) = cerr p /\
      prefix_function_list_ (SetPrefixList prefix_list p) = prefix_list) /\
  (forall out_stream,
      prefix_function_list_ (SetOstream out_stream p)
      = prefix_function_list_ p /\
      cerr (SetOstream out_stream p) = cerr p).
Proof.
  split; [done|]. intros out_stream. unfold SetOstream.
  by destruct out_stream.
Qed.

(** ** Exceptions in the constructor *)

Lemma clean_inserts v : clean v = true -> inserts v = true.
Proof.
  destruct v as [T HT v]; simpl. by destruct (insertion v) as [[text sets]|e].
Qed.

Lemma chain_returns nl s values :
  Forall (fun v => inserts v = true) values ->
  exists this',
    chain {| newline_ := nl; out_sync_stream_ := Some s;
             out_sync_stream_valid_ := true |} values = Returns this'.
Proof.
  intros Hins. revert s.
  induction Hins as [|[T HT v] rest Hv _ IH]; intros s; [by eexists|].
  cbn [chain]. unfold operator_shl.
  cbn [out_sync_stream_valid_ out_sync_stream_ newline_]. simpl in Hv.
  destruct (insertion v) as [[text sets]|e]; [apply IH|done].
Qed.

(** C3, as stated, fails on three inputs. A generator that throws a
    [std::exception] leaves the handle valid: the insertion that follows is
    written and the destructor hands it, with the terminator, to the sink.
    A generator that throws anything else makes the constructor throw. So
    does a free store that cannot serve the strings of the member
    [severity_map]. *)
Lemma constructor_failure_counterexample :
  (let p := SetPrefixList [failing_prefix] logging in
   exists this p1 this' p2,
     (try_block kDebug calm p 0 (fresh true)).2
     = raises (std_exception "prefix failed"%string) /\
     constructor kDebug true calm p = Returns (this, p1) /\
     out_sync_stream_valid_ this = true /\
     operator_shl this (L"x") = Returns this' /\
     this' <> this /\
     destructor this' p1 = Returns p2 /\
     sink p2 = Some {| rdbuf := L"x" ++ endl; good := true |}) /\
  (let p := SetPrefixList [alien_prefix] logging in
   constructor kDebug true calm p = Throws other_exception p) /\
  constructor kDebug true starved logging
  = Throws (std_exception "std::bad_alloc") logging.
Proof.
  split; [|split; reflexivity].
  simpl. do 4 eexists.
  split; [reflexivity|]. split; [reflexivity|]. split; [reflexivity|].
  split; [reflexivity|]. split; [discriminate|]. split; reflexivity.
Qed.

(** C3, amended: when a [std::exception] is thrown in the try block of the
    constructor, with a valid sink, the constructor catches it, writes the
    diagnostic to [std::cerr] and returns normally. If the exception came
    from the allocation of the synchronized stream, the object has no valid
    handle: every chain of insertions returns it unchanged and its
    destructor leaves every process state as it is. If it came from a prefix
    generator or from the severity lookup, the handle is valid, bound to
    the sink and without error bit: insertions that leave no error bit
    return, and the destructor then hands to the sink what was pending, the
    text of all the values and the terminator the line was constructed
    with. *)
Theorem std_exception_in_constructor
    severity newline w p (sink : ptr) o this what :
  out_stream_valid_ p = true ->
  out_stream_ p = Some sink ->
  heap p !! sink = Some (live o) ->
  table_new w = yields tt ->
  try_block severity w p sink (fresh newline)
  = (this, raises (std_exception what)) ->
  constructor severity newline w p = Returns (this, report what p) /\
  ((adapter_new w = raises (std_exception what) /\
    this = fresh newline /\
    (forall values, chain this values = Returns this) /\
    (forall q, destructor this q = Returns q))
   \/
   (adapter_new w = yields tt /\
    out_sync_stream_valid_ this = true /\
    exists s,
      out_sync_stream_ this = Some s /\ wrapped s = sink /\
      error s = false /\
      forall values,
        Forall (fun v => clean v = true) values ->
        exists this',
          chain this values = Returns this' /\
          forall q (o' : wostream),
            heap q !! sink = Some (live o') ->
            exists q',
              destructor this' q = Returns q' /\
              heap q' !! sink
              = Some (live {| rdbuf := rdbuf o' ++ pending s
                                       ++ concat (text_of <$> values)
                                       ++ (if newline then endl else []);
                              good := good o' |}))).
Proof.
  intros Hvalid Hsink Hlive Htable Hblock. split.
  { unfold constructor. by rewrite Htable, Hvalid, Hsink, Hlive, Hblock. }
  destruct (try_block_cases _ _ _ _ _ _ _ Hblock)
    as [(e & Hnew & -> & [= ->])|(Hnew & text & ->)].
  - left. split; [done|]. split; [done|]. split.
    + intros values. by apply chain_without_handle.
    + intros q. unfold destructor, fresh; simpl. by rewrite andb_false_r.
  - right. split; [done|]. split; [done|]. eexists. split; [done|].
    split; [done|]. split; [done|]. intros values Hclean.
    destruct (chain_returns newline
                {| wrapped := sink; pending := text; error := false |}
                values) as [this' Hchain].
    { eapply Forall_impl; [exact Hclean|]. apply clean_inserts. }
    exists this'. split; [done|]. intros q o' Hq.
    destruct (destructor_after_chain newline
                {| wrapped := sink; pending := text; error := false |}
                values this' q o' eq_refl Hchain Hq)
      as (q' & Hdtor & Hemit).
    exists q'. split; [done|].
    rewrite (emit_live _ _ _ _ _ Hemit Hq), decide_True by done.
    unfold rest_of_line. rewrite (appended_clean _ Hclean).
    cbn [fst snd wrapped pending]. by rewrite andb_true_r, <- ?app_assoc.
Qed.

Lemma std_exception_in_constructor_witness :
  let p := SetPrefixList [clock_prefix; failing_prefix] logging in
  exists this,
    constructor kDebug true calm p
    = Returns (this, report "prefix failed" p) /\
    out_sync_stream_valid_ this = true /\
    exists this' q',
      chain this [@Value wstring wstring_insertable (L"x")] = Returns this' /\
      destructor this' (report "prefix failed" p) = Returns q' /\
      heap q' !! 0
      = Some (live {| rdbuf := L"0 x" ++ endl; good := true |}).
Proof.
  set (p := SetPrefixList [clock_prefix; failing_prefix] logging).
  set (this := {| newline_ := true;
                  out_sync_stream_ :=
                    Some {| wrapped := 0; pending := L"0 "; error := false |};
                  out_sync_stream_valid_ := true |}).
  exists this.
  destruct (std_exception_in_constructor kDebug true calm p 0 memory_stream
              this "prefix failed" eq_refl eq_refl eq_refl eq_refl eq_refl)
    as [Hctor [(Hnew & _)|(_ & Hvalid & s & Hs & _ & _ & Hchain)]];
    [discriminate Hnew|].
  injection Hs as <-. split; [exact Hctor|]. split; [exact Hvalid|].
  destruct (Hchain [@Value wstring wstring_insertable (L"x")])
    as (this' & Hthis' & Hdtor); [repeat constructor|].
  destruct (Hdtor (report "prefix failed" p) memory_stream eq_refl)
    as (q' & Hq' & Hheap).
  exists this', q'. split; [exact Hthis'|]. split; [exact Hq'|exact Hheap].
Defined.

(** ** An inserter that throws *)

(** C7, at the failing input: the value's inserter throws, the exception
    meets the [noexcept] of [operator<<], and the program is terminated;
    the value after it is never inserted and the line is never written. *)
Theorem throwing_insertion_terminates :
  exists this p1,
    constructor kDebug true calm logging = Returns (this, p1) /\
    operator_shl this {| thrown := std_exception "bad value" |} = Terminates /\
    log_statement kDebug true
      [Value {| thrown := std_exception "bad value" |}; Value (L"after")]
      calm logging
    = Terminates.
Proof. do 2 eexists. split; [reflexivity|]. split; reflexivity. Qed.

(** When the inserter returns, so does [operator<<], with the same object;
    the text is added to what is pending unless an error bit is set. *)
Lemma operator_shl_returns `{Insertable T} this (v : T) text sets s :
  out_sync_stream_valid_ this = true ->
  out_sync_stream_ this = Some s ->
  insertion v = yields (text, sets) ->
  operator_shl this v
  = Returns {| newline_ := newline_ this;
               out_sync_stream_ := Some (write text sets s);
               out_sync_stream_valid_ := true |}.
Proof. unfold operator_shl. by intros -> -> ->. Qed.

(** ** Replacing the sink under a line *)

(** C9, at the failing input: a line is under construction on the first
    sink when [SetOstream] installs a second one. The first stream is
    deleted at once, while the object still holds its valid handle on it,
    and the destructor of the object then writes through that handle. *)
Theorem SetOstream_deletes_sink_in_use :
  exists this p1 s,
    constructor kDebug true calm logging = Returns (this, p1) /\
    out_sync_stream_valid_ this = true /\
    out_sync_stream_ this = Some s /\
    heap p1 !! wrapped s = Some (live memory_stream) /\
    let p2 := SetOstream (Some memory_stream) p1 in
    heap p2 !! wrapped s = Some deleted /\
    destructor this p2 = Undefined.
Proof.
  do 3 eexists. split; [reflexivity|]. split; [reflexivity|].
  split; [reflexivity|]. split; [reflexivity|]. split; reflexivity.
Qed.

(** ** Examples *)

(** The first statement of main.cpp, [LOG(DEBUG) << L"Line " << 1], on an
    empty stream and without prefixes. *)
Example main_first_line :
  log_statement kDebug true [Value (L"Line "); Value 1%Z] calm logging
  = Returns {| heap := [live {| rdbuf := L"DEBUG: Line 1" ++ endl;
                                good := true |}];
               prefix_function_list_ := [];
               out_stream_ := Some 0;
               out_stream_valid_ := true;
               cerr := EmptyString |}.
Proof. reflexivity. Qed.

(** The same statement with a clock prefix installed, at time 7. *)
Example main_first_line_with_prefix :
  match log_statement kDebug true [Value (L"Line "); Value 1%Z]
          (ticking 7) (SetPrefixList [clock_prefix] logging) with
  | Returns p => sink p
  | _ => None
  end
  = Some {| rdbuf := L"7 DEBUG: Line 1" ++ endl; good := true |}.
Proof. reflexivity. Qed.

(** The allocation of the synchronized stream fails: the constructor
    reports it and returns an object without handle. *)
Example allocation_failure :
  constructor kDebug true exhausted logging
  = Returns (fresh true, report "std::bad_alloc" logging).
Proof. reflexivity. Qed.

(** ** Instances of the theorems *)

Lemma constructor_writes_prefixes_tag_separator_witness :
  constructor kWarning true calm (SetPrefixList [clock_prefix] logging)
  = Returns ({| newline_ := true;
                out_sync_stream_ :=
                  Some {| wrapped := 0;
                          pending := concat [L"0 "] ++ L"WARNING" ++ L": ";
                          error := false |};
                out_sync_stream_valid_ := true |},
             SetPrefixList [clock_prefix] logging).
Proof.
  apply (constructor_writes_prefixes_tag_separator kWarning true calm
           (SetPrefixList [clock_prefix] logging) 0 memory_stream);
    try reflexivity.
  repeat constructor.
Defined.

Lemma out_of_range_severity_is_caught_witness :
  constructor 7 true calm (SetPrefixList [clock_prefix] logging)
  = Returns ({| newline_ := true;
                out_sync_stream_ :=
                  Some {| wrapped := 0; pending := concat [L"0 "];
                          error := false |};
                out_sync_stream_valid_ := true |},
             report out_of_range_what (SetPrefixList [clock_prefix] logging)).
Proof.
  apply (out_of_range_severity_is_caught 7 true calm
           (SetPrefixList [clock_prefix] logging) 0 memory_stream [L"0 "]);
    try reflexivity; [lia|repeat constructor].
Defined.

(** A line constructed with [newline = true] and one text inserted: the
    destructor writes the text and one terminator. *)
Lemma destructor_writes_terminator_witness :
  exists q',
    destructor {| newline_ := true;
                  out_sync_stream_ :=
                    Some {| wrapped := 0; pending := L"INFO: x";
                            error := false |};
                  out_sync_stream_valid_ := true |} logging
    = Returns q' /\
    heap q' !! 0
    = Some (live {| rdbuf := L"INFO: x" ++ endl; good := true |}).
Proof.
  destruct (destructor_writes_terminator kInfo true calm logging
              {| newline_ := true;
                 out_sync_stream_ :=
                   Some {| wrapped := 0; pending := L"INFO: ";
                           error := false |};
                 out_sync_stream_valid_ := true |}
              logging
              {| wrapped := 0; pending := L"INFO: "; error := false |}
              [@Value wstring wstring_insertable (L"x")]
              {| newline_ := true;
                 out_sync_stream_ :=
                   Some {| wrapped := 0; pending := L"INFO: x";
                           error := false |};
                 out_sync_stream_valid_ := true |}
              logging memory_stream
              eq_refl eq_refl eq_refl eq_refl eq_refl)
    as (q' & Hdtor & Hclean & _).
  exists q'. split; [exact Hdtor|].
  apply Hclean. repeat constructor.
Defined.

Lemma registry_invariant_holds_witness :
  registry_invariant logging /\
  sink (SetOstream (Some failed_stream) logging) = Some failed_stream /\
  out_stream_valid_ (SetOstream (Some failed_stream) logging) = false.
Proof.
  assert (Hreach : reachable logging).
  { eapply reachable_transition; [apply reachable_initial|constructor]. }
  destruct (registry_invariant_holds logging Hreach) as [Hinv Hset].
  split; [exact Hinv|].
  destruct (Hset (Some failed_stream)) as (Hsink & Hvalid & _).
  split; [exact Hsink|exact Hvalid].
Defined.

(** ** Concurrent lines *)

Lemma through_cons t ts :
  through (t :: ts)
  = match t with finished s => s :: through ts | _ => through ts end.
Proof. by destruct t. Qed.

Lemma through_insert_same ts i t t' :
  ts !! i = Some t -> is_finished t = false -> is_finished t' = false ->
  through (<[i := t']> ts) = through ts.
Proof.
  revert i. induction ts as [|t0 ts IH]; intros [|i] Hi Ht Ht'; try done.
  - injection Hi as ->.
    change (<[0 := t']> (t :: ts)) with (t' :: ts).
    rewrite !through_cons. by destruct t, t'.
  - change (<[S i := t']> (t0 :: ts)) with (t0 :: <[i := t']> ts).
    rewrite !through_cons. by rewrite (IH i Hi Ht Ht').
Qed.

Lemma through_insert_finished ts i t s :
  ts !! i = Some t -> is_finished t = false ->
  through (<[i := finished s]> ts) ≡ₚ s :: through ts.
Proof.
  revert i. induction ts as [|t0 ts IH]; intros [|i] Hi Ht; try done.
  - injection Hi as ->.
    change (<[0 := finished s]> (t :: ts)) with (finished s :: ts).
    rewrite !through_cons. by destruct t.
  - change (<[S i := finished s]> (t0 :: ts))
      with (t0 :: <[i := finished s]> ts).
    rewrite !through_cons.
    destruct t0 as [s0|s0 this rest|s0]; rewrite (IH i Hi Ht);
      [done|done|apply Permutation_swap].
Qed.

Lemma through_all_finished ts :
  Forall (fun t => is_finished t = true) ts -> through ts = program <$> ts.
Proof.
  induction 1 as [|t ts Ht _ IH]; [done|].
  rewrite through_cons, fmap_cons, IH. by destruct t.
Qed.

Lemma try_block_prefix_list severity w p p' sink :
  prefix_function_list_ p = prefix_function_list_ p' ->
  try_block severity w p sink = try_block severity w p' sink.
Proof. unfold try_block. by intros ->. Qed.

Lemma constructor_Returns_block severity newline w p l this p' :
  out_stream_valid_ p = true ->
  out_stream_ p = Some l ->
  constructor severity newline w p = Returns (this, p') ->
  table_new w = yields tt /\
  (exists c, try_block severity w p l (fresh newline) = (this, c) /\
             c <> raises other_exception) /\
  heap p' = heap p /\
  prefix_function_list_ p' = prefix_function_list_ p /\
  out_stream_ p' = out_stream_ p /\
  out_stream_valid_ p' = out_stream_valid_ p.
Proof.
  intros Hvalid Hsink. unfold constructor.
  destruct (table_new w) as [[]|e]; [|done]. rewrite Hvalid, Hsink.
  destruct (heap p !! l) as [[o|]|]; [|done..].
  destruct (try_block severity w p l (fresh newline))
    as [this0 [[]|[what|]]].
  - intros [= <- <-]. split; [done|]. split; [by eexists|done].
  - intros [= <- <-]. split; [done|]. split; [by eexists|done].
  - by destruct (reset _ p).
Qed.

Lemma constructor_Throws_block severity newline w p l e p' :
  out_stream_valid_ p = true ->
  out_stream_ p = Some l ->
  constructor severity newline w p = Throws e p' ->
  (table_new w = raises e /\ p' = p) \/
  (table_new w = yields tt /\
   exists this,
     try_block severity w p l (fresh newline) = (this, raises other_exception)
     /\ reset (out_sync_stream_ this) p = Some p').
Proof.
  intros Hvalid Hsink. unfold constructor.
  destruct (table_new w) as [[]|e0]; [|intros [= <- <-]; by left].
  rewrite Hvalid, Hsink.
  destruct (heap p !! l) as [[o|]|]; [|done..].
  destruct (try_block severity w p l (fresh newline))
    as [this0 [[]|[what|]]]; [done..|].
  destruct (reset _ p) as [p1|] eqn:Hreset; [|done].
  intros [= _ <-]. right. split; [done|]. by exists this0.
Qed.

Lemma try_block_handle_on severity w p l newline this c :
  try_block severity w p l (fresh newline) = (this, c) -> handle_on l this.
Proof.
  intros Hb.
  by apply try_block_cases in Hb as [(e & _ & -> & _)|(_ & text & ->)].
Qed.

(** Handing the rest of a line to the sink. *)
Lemma reset_appends (os : option wosyncstream) p p' l o text :
  reset os p = Some p' ->
  heap p !! l = Some (live o) ->
  match os with Some s => wrapped s = l /\ pending s = text | None => text = [] end ->
  heap p' !! l
  = Some (live {| rdbuf := rdbuf o ++ text; good := good o |}).
Proof.
  destruct os as [s|]; simpl.
  - intros Hemit Hl [<- <-]. rewrite (emit_live _ _ _ _ _ Hemit Hl).
    by rewrite decide_True.
  - intros [= <-] Hl ->. rewrite Hl, app_nil_r. by destruct o.
Qed.

Lemma reset_registry os p p' :
  reset os p = Some p' ->
  prefix_function_list_ p' = prefix_function_list_ p /\
  out_stream_ p' = out_stream_ p /\
  out_stream_valid_ p' = out_stream_valid_ p.
Proof.
  destruct os as [s|]; simpl; [|by intros [= <-]].
  intros Hemit. by destruct (emit_registry _ _ _ Hemit) as (? & ? & ? & _).
Qed.

(** The line of a statement whose table cannot be allocated is empty. *)
Lemma written_without_table prefixes s e :
  table_new (stmt_world s) = raises e -> written prefixes s = [].
Proof. unfold written, operator_new. by intros ->. Qed.

(** What the try block leaves pending, with the values and the terminator
    still to come, is the line of the statement. *)
Lemma written_after_constructor p0 p l s this c :
  prefix_function_list_ p = prefix_function_list_ p0 ->
  table_new (stmt_world s) = yields tt ->
  try_block (stmt_severity s) (stmt_world s) p l (fresh (stmt_newline s))
  = (this, c) ->
  c <> raises other_exception ->
  to_emit this (stmt_values s) = written (prefix_function_list_ p0) s.
Proof.
  intros Hpre Htable. rewrite try_block_text, Hpre.
  unfold written, operator_new. rewrite Htable.
  destruct (adapter_new (stmt_world s)) as [[]|e]; [|by intros [= <- <-]].
  cbn zeta.
  destruct (prefix_outputs (stmt_world s) (prefix_function_list_ p0)).2
    as [[what|]|].
  - by intros [= <- <-].
  - by intros [= <- <-].
  - destruct (severity_map !! stmt_severity s) as [tag|] eqn:Htag.
    + rewrite (at_in_range severity_map (stmt_severity s) tag Htag).
      intros [= <- <-] _. unfold to_emit; simpl. by rewrite <- ?app_assoc.
    + rewrite (at_out_of_range severity_map (stmt_severity s))
        by by apply lookup_ge_None_1.
      by intros [= <- <-] _.
Qed.

(** What the try block leaves pending when an exception goes through the
    constructor is the line of the statement. *)
Lemma written_after_unwinding p0 p l s this :
  prefix_function_list_ p = prefix_function_list_ p0 ->
  table_new (stmt_world s) = yields tt ->
  try_block (stmt_severity s) (stmt_world s) p l (fresh (stmt_newline s))
  = (this, raises other_exception) ->
  match out_sync_stream_ this with
  | Some os => wrapped os = l /\ pending os = written (prefix_function_list_ p0) s
  | None => written (prefix_function_list_ p0) s = []
  end.
Proof.
  intros Hpre Htable. rewrite try_block_text, Hpre.
  unfold written, operator_new. rewrite Htable.
  destruct (adapter_new (stmt_world s)) as [[]|e]; [|by intros [= <- _]].
  cbn zeta.
  destruct (prefix_outputs (stmt_world s) (prefix_function_list_ p0)).2
    as [[what|]|].
  - done.
  - by intros [= <-].
  - destruct (at_ severity_map (stmt_severity s)) as [tag|e] eqn:Hat; [done|].
    intros [= _ ->]. by apply at_raises in Hat.
Qed.

Lemma to_emit_after_insertion `{Insertable T} l this (v : T) this' rest :
  handle_on l this ->
  operator_shl this v = Returns this' ->
  handle_on l this' /\ to_emit this' rest = to_emit this (Value v :: rest).
Proof.
  unfold handle_on, operator_shl, to_emit.
  destruct this as [nl [os|] valid];
    cbn [out_sync_stream_ out_sync_stream_valid_ newline_].
  - intros [Hl ->]. destruct (insertion v) as [[text sets]|e] eqn:Hv; [|done].
    assert (Hf : formatted (Value v) = (text, sets)).
    { unfold formatted. by rewrite Hv. }
    intros [= <-]. cbn [out_sync_stream_ out_sync_stream_valid_ newline_].
    unfold write. destruct (error os) eqn:Herr.
    + by rewrite Herr.
    + cbn [wrapped pending error]. split; [done|].
      unfold rest_of_line. cbn [appended]. rewrite Hf. cbn [fst snd].
      destruct sets; cbn [fst snd].
      * by rewrite andb_false_r, <- app_assoc.
      * by rewrite <- ?app_assoc.
  - intros ->. by intros [= <-].
Qed.

Lemma destructor_hands_over l this p p' o :
  handle_on l this ->
  heap p !! l = Some (live o) ->
  destructor this p = Returns p' ->
  heap p' !! l
  = Some (live {| rdbuf := rdbuf o ++ to_emit this []; good := good o |})
  /\ prefix_function_list_ p' = prefix_function_list_ p
  /\ out_stream_ p' = out_stream_ p
  /\ out_stream_valid_ p' = out_stream_valid_ p.
Proof.
  unfold handle_on, destructor, to_emit, rest_of_line.
  destruct this as [nl [os|] valid];
    cbn [out_sync_stream_ out_sync_stream_valid_ newline_ appended fst snd].
  - intros [Hl ->] Hlive. rewrite !andb_true_r.
    destruct nl; cbn [app].
    + destruct (reset (Some (put endl os)) p) as [p1|] eqn:Hreset; [|done].
      intros [= <-]. split; [|by apply (reset_registry _ _ _ Hreset)].
      apply (reset_appends _ _ _ _ _ _ Hreset Hlive).
      unfold put, write. destruct (error os); by rewrite ?app_nil_r.
    + destruct (reset (Some os) p) as [p1|] eqn:Hreset; [|done].
      intros [= <-]. split; [|by apply (reset_registry _ _ _ Hreset)].
      apply (reset_appends _ _ _ _ _ _ Hreset Hlive).
      split; [done|]. destruct (error os); by rewrite app_nil_r.
  - intros -> Hlive. rewrite andb_false_r. intros [= <-].
    split; [|done]. rewrite Hlive, app_nil_r. by destruct o.
Qed.

(** The thread makes a call, has fewer calls left and values that insert. *)
Ltac made_call :=
  do 2 eexists; split; [done|]; simpl; split; [lia|done].

(** *** Executions from a state with a valid sink *)

Section execution.

Context (p0 : Process) (l : ptr) (o : wostream).
Hypothesis sink_valid : out_stream_valid_ p0 = true.
Hypothesis sink_present : out_stream_ p0 = Some l.
Hypothesis sink_live : heap p0 !! l = Some (live o).

(** One member function call of one thread keeps the state of the
    execution. *)
Lemma advance_keeps_lines p ts i t t' p' :
  lines_so_far p0 l o (p, ts) ->
  ts !! i = Some t ->
  advance t p = Some (t', p') ->
  lines_so_far p0 l o (p', <[i := t']> ts).
Proof.
  intros (Hpre & Hout & Hvalid & Hall & order & Hperm & Hheap) Hi Hadv.
  simpl in *. pose proof (Forall_lookup_1 _ _ _ _ Hall Hi) as Ht.
  destruct t as [s|s this [|[T HT v] rest]|s]; simpl in Hadv; [| | |done].
  - destruct (constructor _ _ _ p) as [[this p1]|e p1| |] eqn:Hctor;
      [| |done..]; injection Hadv as <- <-.
    + destruct (constructor_Returns_block _ _ _ _ _ _ _ Hvalid Hout Hctor)
        as (Htable & (c & Hb & Hc) & Hheap1 & Hpre1 & Hout1 & Hvalid1).
      unfold lines_so_far; simpl.
      split; [congruence|]. split; [congruence|]. split; [congruence|].
      split.
      { apply Forall_insert; [done|]. split.
        - by eapply try_block_handle_on.
        - by eapply written_after_constructor. }
      exists order. rewrite (through_insert_same _ _ _ _ Hi) by done.
      split; [done|]. by rewrite Hheap1.
    + assert (Horder : order ++ [s] ≡ₚ through (<[i := finished s]> ts)).
      { rewrite (through_insert_finished _ _ _ _ Hi) by done.
        rewrite <- Hperm. symmetry. apply Permutation_cons_append. }
      destruct (constructor_Throws_block _ _ _ _ _ _ _ Hvalid Hout Hctor)
        as [[Htable ->]|(Htable & this & Hb & Hreset)].
      * unfold lines_so_far; simpl.
        split; [done|]. split; [done|]. split; [done|].
        split; [by apply Forall_insert|].
        exists (order ++ [s]). split; [done|].
        rewrite fmap_app, concat_app; simpl.
        by rewrite (written_without_table _ _ _ Htable), !app_nil_r.
      * destruct (reset_registry _ _ _ Hreset) as (Hpre1 & Hout1 & Hvalid1).
        unfold lines_so_far; simpl.
        split; [congruence|]. split; [congruence|]. split; [congruence|].
        split; [by apply Forall_insert|].
        exists (order ++ [s]). split; [done|].
        rewrite fmap_app, concat_app; simpl. rewrite app_nil_r, app_assoc.
        apply (reset_appends _ _ _ _ _ _ Hreset Hheap).
        by apply (written_after_unwinding p0 p).
  - destruct Ht as [Hhandle Hline].
    destruct (destructor this p) as [p1| | |] eqn:Hdtor; [|done..].
    injection Hadv as <- <-.
    destruct (destructor_hands_over _ _ _ _ _ Hhandle Hheap Hdtor)
      as (Hheap1 & Hpre1 & Hout1 & Hvalid1).
    unfold lines_so_far; simpl.
    split; [congruence|]. split; [congruence|]. split; [congruence|].
    split; [by apply Forall_insert|].
    exists (order ++ [s]). split.
    { rewrite (through_insert_finished _ _ _ _ Hi) by done.
      rewrite <- Hperm. symmetry. apply Permutation_cons_append. }
    rewrite fmap_app, concat_app; simpl. rewrite app_nil_r, app_assoc.
    by rewrite <- Hline.
  - destruct Ht as [Hhandle Hline].
    destruct (operator_shl this v) as [this'| | |] eqn:Hins; [|done..].
    injection Hadv as <- <-.
    destruct (to_emit_after_insertion l this v this' rest Hhandle Hins)
      as [Hhandle' Hemit].
    unfold lines_so_far; simpl.
    split; [done|]. split; [done|]. split; [done|].
    split; [apply Forall_insert; [done|]; split; [done|congruence]|].
    exists order. by rewrite (through_insert_same _ _ _ _ Hi).
Qed.

Lemma advance_program t p t' p' :
  advance t p = Some (t', p') -> program t' = program t.
Proof.
  destruct t as [s|s this [|[T HT v] rest]|s]; simpl; [| | |done].
  - destruct (constructor _ _ _ p) as [[this p1]|e p1| |]; [| |done..];
      by intros [= <- _].
  - destruct (destructor this p); [|done..]. by intros [= <- _].
  - destruct (operator_shl this v); [|done..]. by intros [= <- _].
Qed.

Lemma step_inv i c c' :
  step i c = Some c' ->
  exists t t', c.2 !! i = Some t /\ advance t c.1 = Some (t', c'.1) /\
               c'.2 = <[i := t']> c.2.
Proof.
  unfold step. destruct (c.2 !! i) as [t|]; [|done]. simpl.
  destruct (advance t c.1) as [[t' p']|] eqn:Hadv; [|done]. simpl.
  intros [= <-]. by exists t, t'.
Qed.

Lemma run_keeps_lines schedule c c' :
  lines_so_far p0 l o c -> run schedule c = Some c' -> lines_so_far p0 l o c'.
Proof.
  revert c. induction schedule as [|i later IH]; intros c Hinv; simpl.
  - by intros [= <-].
  - destruct (step i c) as [c1|] eqn:Hstep; [|done]. simpl.
    apply IH. destruct (step_inv _ _ _ Hstep) as (t & t' & Hi & Hadv & Hts).
    destruct c as [p ts], c1 as [p1 ts1]; simpl in *. subst ts1.
    by eapply advance_keeps_lines.
Qed.

Lemma run_programs schedule c c' :
  run schedule c = Some c' -> program <$> c'.2 = program <$> c.2.
Proof.
  revert c. induction schedule as [|i later IH]; intros c; simpl.
  - by intros [= <-].
  - destruct (step i c) as [c1|] eqn:Hstep; [|done]. simpl.
    intros Hrun. rewrite (IH _ Hrun).
    destruct (step_inv _ _ _ Hstep) as (t & t' & Hi & Hadv & ->).
    rewrite list_fmap_insert, (advance_program _ _ _ _ Hadv).
    apply list_insert_id. by rewrite list_lookup_fmap, Hi.
Qed.

Lemma program_ready (stmts : list statement) :
  program <$> (ready <$> stmts) = stmts.
Proof.
  induction stmts as [|s stmts IH]; [done|].
  rewrite !fmap_cons, IH. done.
Qed.

Lemma lines_at_start stmts : lines_so_far p0 l o (p0, ready <$> stmts).
Proof.
  unfold lines_so_far; simpl.
  split; [done|]. split; [done|]. split; [done|]. split.
  - apply Forall_fmap, Forall_true. done.
  - exists []. split.
    + induction stmts as [|s stmts IH]; [done|].
      by rewrite fmap_cons, through_cons.
    + simpl. rewrite app_nil_r, sink_live. by destruct o.
Qed.

(** C1: threads that each execute one logging statement against the same
    valid sink, their member function calls interleaved in any way: when
    all of them are through, the sink holds, after what it held before, the
    complete lines of the statements one after the other, in some order,
    each line in one piece. The line of a statement is the text [written]
    spells out: the outputs of the installed generators, the severity tag,
    the separator, the values and the terminator. *)
Theorem concurrent_lines_are_contiguous stmts schedule p' ts' :
  run schedule (p0, ready <$> stmts) = Some (p', ts') ->
  Forall (fun t => is_finished t = true) ts' ->
  exists order,
    order ≡ₚ stmts /\
    sink p'
    = Some {| rdbuf := rdbuf o
                       ++ concat (written (prefix_function_list_ p0) <$> order);
              good := good o |}.
Proof.
  intros Hrun Hdone.
  pose proof (run_keeps_lines _ _ _ (lines_at_start stmts) Hrun)
    as (_ & Hout' & _ & _ & order & Hperm & Hheap').
  pose proof (run_programs _ _ _ Hrun) as Hprog.
  simpl in *. exists order. split.
  - by rewrite Hperm, (through_all_finished _ Hdone), Hprog, program_ready.
  - unfold sink. by rewrite Hout'; simpl; rewrite Hheap'.
Qed.

(** A thread that is not through can make its next call, as long as the
    inserters of its values return. *)
Lemma next_call_possible p ts i t :
  lines_so_far p0 l o (p, ts) ->
  ts !! i = Some t ->
  is_finished t = false ->
  Forall (fun v => inserts v = true) (to_insert t) ->
  exists t' p',
    advance t p = Some (t', p') /\
    calls_left t' < calls_left t /\
    Forall (fun v => inserts v = true) (to_insert t').
Proof.
  intros (Hpre & Hout & Hvalid & Hall & order & Hperm & Hheap) Hi Hfin Hins.
  simpl in *. pose proof (Forall_lookup_1 _ _ _ _ Hall Hi) as Ht.
  destruct t as [s|s this [|[T HT v] rest]|s]; simpl in *; [| | |done].
  - unfold constructor.
    destruct (table_new (stmt_world s)) as [[]|e0]; [|made_call].
    rewrite Hvalid, Hout, Hheap.
    destruct (try_block _ _ p l _) as [this c] eqn:Hb.
    pose proof (try_block_handle_on _ _ _ _ _ _ _ Hb) as Hhandle.
    destruct c as [[]|[what|]].
    + made_call.
    + made_call.
    + unfold handle_on in Hhandle.
      destruct (out_sync_stream_ this) as [os|]; simpl.
      * destruct Hhandle as [<- _]. unfold emit. rewrite Hheap.
        made_call.
      * made_call.
  - destruct Ht as [Hhandle _]. unfold handle_on in Hhandle.
    unfold destructor.
    destruct this as [nl [os|] valid]; simpl in *.
    + destruct Hhandle as [<- ->]. rewrite andb_true_r.
      destruct nl; simpl; unfold emit, put, write; destruct (error os);
        simpl; rewrite Hheap; made_call.
    + subst valid. rewrite andb_false_r.
      made_call.
  - destruct Ht as [Hhandle _]. unfold handle_on in Hhandle.
    apply Forall_cons in Hins as [Hv Hrest]. simpl in Hv.
    unfold operator_shl.
    destruct this as [nl [os|] valid]; simpl in *.
    + destruct Hhandle as [_ ->].
      destruct (insertion v) as [[text sets]|e]; [|done].
      made_call.
    + subst valid. made_call.
Qed.

Lemma calls_left_insert ts i t t' :
  ts !! i = Some t -> calls_left t' < calls_left t ->
  sum_list (calls_left <$> <[i := t']> ts) < sum_list (calls_left <$> ts).
Proof.
  revert i. induction ts as [|t0 ts IH]; intros [|i] Hi Hlt; try done.
  - injection Hi as ->. simpl. lia.
  - change (<[S i := t']> (t0 :: ts)) with (t0 :: <[i := t']> ts).
    rewrite !fmap_cons. simpl. specialize (IH i Hi Hlt). lia.
Qed.

Lemma calls_left_finished ts :
  sum_list (calls_left <$> ts) = 0 ->
  Forall (fun t => is_finished t = true) ts.
Proof.
  induction ts as [|t ts IH]; [done|]. rewrite fmap_cons. simpl.
  intros Hsum. constructor; [by destruct t; simpl in *; try lia|].
  apply IH. lia.
Qed.

(** Executions in which every thread gets through exist whenever the
    inserters of all values return: the threads can be run to the end from
    any state an execution has reached. *)
Lemma some_schedule_completes n c :
  sum_list (calls_left <$> c.2) <= n ->
  lines_so_far p0 l o c ->
  Forall (fun t => Forall (fun v => inserts v = true) (to_insert t)) c.2 ->
  exists schedule c',
    run schedule c = Some c' /\ Forall (fun t => is_finished t = true) c'.2.
Proof.
  revert c. induction n as [|n IH]; intros [p ts] Hn Hinv Hins;
    cbn [fst snd] in *.
  - exists [], (p, ts). split; [done|]. apply calls_left_finished.
    cbn [snd]. lia.
  - destruct (decide (Forall (fun t => is_finished t = true) ts)) as [|Hnot].
    { by exists [], (p, ts). }
    apply not_Forall_Exists in Hnot; [|apply _].
    apply Exists_exists in Hnot as (t & Hin & Hfin).
    apply list_elem_of_lookup in Hin as [i Hi].
    apply not_true_is_false in Hfin.
    destruct (next_call_possible _ _ _ _ Hinv Hi Hfin
                (Forall_lookup_1 _ _ _ _ Hins Hi))
      as (t' & p' & Hadv & Hlt & Hins').
    destruct (IH (p', <[i := t']> ts)) as (schedule & c' & Hrun & Hdone).
    + cbn [fst snd]. pose proof (calls_left_insert _ _ _ _ Hi Hlt). lia.
    + by eapply advance_keeps_lines.
    + cbn [fst snd]. by apply Forall_insert.
    + exists (i :: schedule), c'. split; [|done].
      simpl. unfold step; simpl. by rewrite Hi; simpl; rewrite Hadv.
Qed.

Lemma a_complete_execution_exists stmts :
  Forall (fun s => Forall (fun v => inserts v = true) (stmt_values s)) stmts ->
  exists schedule p' ts',
    run schedule (p0, ready <$> stmts) = Some (p', ts') /\
    Forall (fun t => is_finished t = true) ts'.
Proof.
  intros Hins.
  destruct (some_schedule_completes _ (p0, ready <$> stmts)
              (Nat.le_refl _) (lines_at_start stmts))
    as (schedule & [p' ts'] & Hrun & Hdone).
  - simpl. by apply Forall_fmap.
  - by exists schedule, p', ts'.
Qed.

End execution.

(** Two threads race on a sink with the clock prefix installed: the lines
    arrive whole, the line of the second thread first. *)
Lemma concurrent_lines_are_contiguous_witness :
  exists order,
    order ≡ₚ racing /\
    sink after_race
    = Some {| rdbuf := rdbuf memory_stream
                       ++ concat (written [clock_prefix] <$> order);
              good := good memory_stream |}.
Proof.
  apply (concurrent_lines_are_contiguous stamping 0 memory_stream
           eq_refl eq_refl eq_refl racing alternating after_race
           (finished <$> racing)); [reflexivity|].
  repeat constructor.
Defined.

(** The lines of the two racing statements, and the race itself. *)
Example racing_lines :
  written (prefix_function_list_ stamping) <$> racing
  = [L"1 DEBUG: a1" ++ endl; L"2 INFO: b"].
Proof. reflexivity. Qed.

Example racing_run :
  run alternating (stamping, ready <$> racing)
  = Some (after_race, finished <$> racing).
Proof. reflexivity. Qed.

(** The line of a statement whose constructor meets no exception and whose
    inserters leave no error bit, spelled out: prefixes, tag, separator,
    values, terminator. *)
Lemma written_regular prefixes s outputs (tag : wstring) :
  operator_new (stmt_world s) = yields tt ->
  Forall2 (fun (prefix : PrefixFunction) text =>
             prefix (stmt_world s) = yields text)
          prefixes outputs ->
  severity_map !! stmt_severity s = Some tag ->
  Forall (fun v => clean v = true) (stmt_values s) ->
  written prefixes s
  = concat outputs ++ tag ++ L": " ++ concat (text_of <$> stmt_values s)
    ++ (if stmt_newline s then endl else []).
Proof.
  intros Hnew Hall Htag Hclean. unfold written, rest_of_line.
  rewrite Hnew, (prefix_outputs_yields _ _ _ Hall), (appended_clean _ Hclean).
  cbn [fst snd]. replace (severity_map !! stmt_severity s) with (Some tag).
  by rewrite andb_true_r.
Qed.

(** * Further properties *)

(** ** A statement on its own *)

Lemma chain_inserts l this values :
  handle_on l this ->
  Forall (fun v => inserts v = true) values ->
  exists this',
    chain this values = Returns this' /\
    handle_on l this' /\
    to_emit this' [] = to_emit this values.
Proof.
  intros Hhandle Hins. revert this Hhandle.
  induction Hins as [|[T HT v] rest Hv _ IH]; intros this Hhandle.
  - by exists this.
  - cbn [chain].
    assert (exists this1, operator_shl this v = Returns this1) as [this1 H1].
    { unfold operator_shl, handle_on in *. simpl in Hv.
      destruct (out_sync_stream_ this) as [os|].
      - destruct Hhandle as [_ ->].
        destruct (insertion v) as [[text sets]|e]; [eauto|done].
      - rewrite Hhandle. eauto. }
    rewrite H1.
    destruct (to_emit_after_insertion l this v this1 rest Hhandle H1)
      as [Hhandle1 Hemit].
    destruct (IH this1 Hhandle1) as (this' & Hchain & Hhandle' & Hemit').
    exists this'. split; [done|]. split; [done|]. congruence.
Qed.

Lemma destructor_returns l this p o :
  handle_on l this ->
  heap p !! l = Some (live o) ->
  exists p', destructor this p = Returns p'.
Proof.
  unfold handle_on, destructor.
  destruct this as [nl [os|] valid]; simpl.
  - intros [<- ->] Hlive. rewrite andb_true_r.
    destruct nl; simpl; unfold emit, put, write; destruct (error os);
      simpl; rewrite Hlive; eauto.
  - intros -> _. rewrite andb_false_r. eauto.
Qed.

Lemma prefix_outputs_catchable w prefixes :
  Forall (fun prefix : PrefixFunction => catchable (prefix w)) prefixes ->
  (prefix_outputs w prefixes).2 <> Some other_exception.
Proof.
  induction 1 as [|prefix rest Hprefix _ IH]; [done|].
  cbn [prefix_outputs]. unfold catchable in Hprefix.
  destruct (prefix w) as [text|e]; [done|]. simpl. congruence.
Qed.

Lemma at_catchable (a : list wstring) (i : nat) : catchable (at_ a i).
Proof. unfold at_, catchable. destruct (a !! i); congruence. Qed.

Lemma try_block_handled p l s :
  handled (prefix_function_list_ p) s ->
  catchable (try_block (stmt_severity s) (stmt_world s) p l
                       (fresh (stmt_newline s))).2.
Proof.
  intros (_ & Hnew & Hall). rewrite try_block_text. unfold catchable in *.
  destruct (adapter_new (stmt_world s)) as [[]|e]; [|simpl; congruence].
  cbn zeta. pose proof (prefix_outputs_catchable _ _ Hall) as Hloop.
  destruct (prefix_outputs (stmt_world s) (prefix_function_list_ p)).2
    as [e|]; [simpl; congruence|].
  pose proof (at_catchable severity_map (stmt_severity s)) as Hat.
  unfold catchable in Hat.
  destruct (at_ severity_map (stmt_severity s)) as [tag|e]; simpl; congruence.
Qed.

(** One statement, executed alone on a valid sink, delivers its line and
    leaves the registry as it is. *)
Lemma log_statement_line p l o s :
  out_stream_valid_ p = true ->
  out_stream_ p = Some l ->
  heap p !! l = Some (live o) ->
  handled (prefix_function_list_ p) s ->
  Forall (fun v => inserts v = true) (stmt_values s) ->
  exists p',
    log_statement (stmt_severity s) (stmt_newline s) (stmt_values s)
                  (stmt_world s) p = Returns p' /\
    heap p' !! l
    = Some (live {| rdbuf := rdbuf o ++ written (prefix_function_list_ p) s;
                    good := good o |}) /\
    prefix_function_list_ p' = prefix_function_list_ p /\
    out_stream_ p' = out_stream_ p /\
    out_stream_valid_ p' = out_stream_valid_ p.
Proof.
  intros Hvalid Hout Hlive Hhandled Hins.
  pose proof (try_block_handled p l s Hhandled) as Hcatch.
  destruct Hhandled as (Htable & _).
  unfold log_statement.
  destruct (constructor _ _ _ p) as [[this p1]|e p1| |] eqn:Hctor.
  - destruct (constructor_Returns_block _ _ _ _ _ _ _ Hvalid Hout Hctor)
      as (_ & (c & Hb & Hc) & Hheap1 & Hpre1 & Hout1 & Hvalid1).
    pose proof (try_block_handle_on _ _ _ _ _ _ _ Hb) as Hhandle.
    destruct (chain_inserts l this _ Hhandle Hins)
      as (this' & -> & Hhandle' & Hemit).
    rewrite <- Hheap1 in Hlive.
    destruct (destructor_returns l this' p1 o Hhandle' Hlive) as [p' Hdtor].
    destruct (destructor_hands_over _ _ _ _ _ Hhandle' Hlive Hdtor)
      as (Hheap' & Hpre' & Hout' & Hvalid').
    exists p'. split; [done|]. split.
    + rewrite Hheap', Hemit.
      by rewrite (written_after_constructor p p l s this c eq_refl Htable
                    Hb Hc).
    + split; [congruence|]. split; congruence.
  - destruct (constructor_Throws_block _ _ _ _ _ _ _ Hvalid Hout Hctor)
      as [[Hraise _]|(_ & this & Hb & _)]; [congruence|].
    exfalso. apply Hcatch. by rewrite Hb.
  - revert Hctor. unfold constructor. rewrite Htable, Hvalid, Hout, Hlive.
    destruct (try_block _ _ p l _) as [this [[]|[what|]]]; [done..|].
    by destruct (reset _ p).
  - revert Hctor. unfold constructor. rewrite Htable, Hvalid, Hout, Hlive.
    destruct (try_block _ _ p l _) as [this [[]|[what|]]]; [done..|].
    exfalso. by apply Hcatch.
Qed.

Lemma regular_statement
    severity newline values w p (sink : ptr) o (tag : wstring) outputs :
  out_stream_valid_ p = true ->
  out_stream_ p = Some sink ->
  heap p !! sink = Some (live o) ->
  severity_map !! severity = Some tag ->
  operator_new w = yields tt ->
  Forall2 (fun (prefix : PrefixFunction) text => prefix w = yields text)
          (prefix_function_list_ p) outputs ->
  Forall (fun v => clean v = true) values ->
  log_statement severity newline values w p
  = Returns
      {| heap :=
           <[sink := live {| rdbuf := rdbuf o ++ concat outputs ++ tag
                                      ++ L": " ++ concat (text_of <$> values)
                                      ++ (if newline then endl else []);
                             good := good o |}]> (heap p);
         prefix_function_list_ := prefix_function_list_ p;
         out_stream_ := Some sink;
         out_stream_valid_ := true;
         cerr := cerr p |}.
Proof.
  intros Hvalid Hsink Hlive Htag Hnew Hall Hclean.
  unfold log_statement, constructor.
  rewrite (proj1 (operator_new_yields w Hnew)), Hvalid, Hsink, Hlive.
  rewrite (try_block_prefixes _ _ _ _ _ _ Hnew Hall).
  rewrite (at_in_range severity_map severity tag Htag).
  destruct (chain_returns newline
              {| wrapped := sink; pending := concat outputs ++ tag ++ L": ";
                 error := false |} values) as [this' Hchain].
  { eapply Forall_impl; [exact Hclean|]. apply clean_inserts. }
  rewrite Hchain.
  destruct (destructor_after_chain newline
              {| wrapped := sink; pending := concat outputs ++ tag ++ L": ";
                 error := false |} values this' p o eq_refl Hchain Hlive)
    as (q' & -> & Hemit).
  revert Hemit. unfold emit, rest_of_line.
  cbn [wrapped pending]. rewrite Hlive, (appended_clean _ Hclean).
  cbn [fst snd]. rewrite andb_true_r, Hsink, Hvalid.
  intros [= <-]. by rewrite <- ?app_assoc.
Qed.

(** X1: a logging statement on a valid sink, when the allocations succeed,
    the generators return, the inserters return without leaving an error
    bit, and the severity is in the table, returns, and all it does to the
    process is to add to the sink, in one piece: the outputs of the
    generators, the tag, the separator, the text of the values and the
    terminator if asked for. Nothing is written to [std::cerr]. *)
Theorem log_statement_writes_line
    severity newline values w p (sink : ptr) o (tag : wstring) outputs :
  out_stream_valid_ p = true ->
  out_stream_ p = Some sink ->
  heap p !! sink = Some (live o) ->
  severity_map !! severity = Some tag ->
  operator_new w = yields tt ->
  Forall2 (fun (prefix : PrefixFunction) text => prefix w = yields text)
          (prefix_function_list_ p) outputs ->
  Forall (fun v => clean v = true) values ->
  log_statement severity newline values w p
  = Returns
      {| heap :=
           <[sink := live {| rdbuf := rdbuf o ++ concat outputs ++ tag
                                      ++ L": " ++ concat (text_of <$> values)
                                      ++ (if newline then endl else []);
                             good := good o |}]> (heap p);
         prefix_function_list_ := prefix_function_list_ p;
         out_stream_ := Some sink;
         out_stream_valid_ := true;
         cerr := cerr p |}.
Proof. apply regular_statement. Qed.

Lemma log_statement_writes_line_witness :
  log_statement kError true [Value (L"Divide by "); Value 0%Z] calm
    (SetPrefixList [clock_prefix] logging)
  = Returns
      {| heap := [live {| rdbuf := L"0 ERROR: Divide by 0" ++ endl;
                          good := true |}];
         prefix_function_list_ := [clock_prefix];
         out_stream_ := Some 0;
         out_stream_valid_ := true;
         cerr := EmptyString |}.
Proof.
  refine (log_statement_writes_line kError true
            [Value (L"Divide by "); Value 0%Z] calm
            (SetPrefixList [clock_prefix] logging) 0 memory_stream
            (L"ERROR") [L"0 "] eq_refl eq_refl eq_refl eq_refl eq_refl _ _);
    repeat constructor.
Defined.

(** ** Statements one after the other *)

Lemma log_statements_lines p0 l stmts :
  forall p o,
    prefix_function_list_ p = prefix_function_list_ p0 ->
    out_stream_valid_ p = true ->
    out_stream_ p = Some l ->
    heap p !! l = Some (live o) ->
    Forall (handled (prefix_function_list_ p0)) stmts ->
    Forall (fun s => Forall (fun v => inserts v = true) (stmt_values s))
           stmts ->
    exists p',
      log_statements stmts p = Returns p' /\
      heap p' !! l
      = Some (live {| rdbuf := rdbuf o
                               ++ concat (written (prefix_function_list_ p0)
                                            <$> stmts);
                      good := good o |}) /\
      prefix_function_list_ p' = prefix_function_list_ p0 /\
      out_stream_ p' = Some l /\
      out_stream_valid_ p' = true.
Proof.
  induction stmts as [|s rest IH]; intros p o Hpre Hvalid Hout Hlive Hh Hins.
  - exists p. split; [done|]. simpl. rewrite app_nil_r, Hlive.
    by destruct o.
  - apply Forall_cons in Hh as [Hs Hrest].
    apply Forall_cons in Hins as [Hvs Hvrest].
    rewrite <- Hpre in Hs.
    destruct (log_statement_line p l o s Hvalid Hout Hlive Hs Hvs)
      as (p1 & Hstmt & Hheap1 & Hpre1 & Hout1 & Hvalid1).
    cbn [log_statements]. rewrite Hstmt.
    destruct (IH p1 _ ltac:(congruence) ltac:(congruence)
                ltac:(congruence) Hheap1 Hrest Hvrest)
      as (p' & Hrun & Hheap' & Hreg).
    exists p'. split; [done|]. split; [|done].
    rewrite Hheap'. cbn [rdbuf good]. rewrite fmap_cons. cbn [concat].
    by rewrite Hpre, <- !app_assoc.
Qed.

(** X2: logging statements executed one after the other on a valid sink,
    none of which meets an exception it cannot handle or a throwing
    inserter, all return, and the sink then holds, after what it held, the
    lines of the statements in the order of the program, each line the text
    [written] spells out from the generators, the severity, the values and
    the terminator. The prefix list and the sink are as before. *)
Theorem statements_write_lines_in_order p (l : ptr) o stmts :
  out_stream_valid_ p = true ->
  out_stream_ p = Some l ->
  heap p !! l = Some (live o) ->
  Forall (handled (prefix_function_list_ p)) stmts ->
  Forall (fun s => Forall (fun v => inserts v = true) (stmt_values s)) stmts ->
  exists p',
    log_statements stmts p = Returns p' /\
    sink p'
    = Some {| rdbuf := rdbuf o
                       ++ concat (written (prefix_function_list_ p) <$> stmts);
              good := good o |} /\
    prefix_function_list_ p' = prefix_function_list_ p.
Proof.
  intros Hvalid Hout Hlive Hh Hins.
  destruct (log_statements_lines p l stmts p o eq_refl Hvalid Hout Hlive
              Hh Hins) as (p' & Hrun & Hheap & Hpre & Hout' & _).
  exists p'. split; [done|]. split; [|done].
  unfold sink. by rewrite Hout'; simpl; rewrite Hheap.
Qed.

(** The two statements of the race, one after the other, with the clock
    prefix installed. *)
Lemma statements_write_lines_in_order_witness :
  exists p',
    log_statements racing stamping = Returns p' /\
    sink p' = Some {| rdbuf := L"1 DEBUG: a1" ++ endl ++ L"2 INFO: b";
                      good := true |} /\
    prefix_function_list_ p' = [clock_prefix].
Proof.
  refine (statements_write_lines_in_order stamping 0 memory_stream racing
            eq_refl eq_refl eq_refl _ _);
    unfold handled, catchable;
    repeat first [constructor | discriminate].
Defined.

(** ** Executions, at every point *)

(** X3: at every point of an execution of concurrent logging statements on
    a valid sink, not only at its end, the sink holds what it held at the
    start followed by complete lines, those of the threads that are
    through, and nothing of the lines still under construction. *)
Theorem sink_holds_complete_lines_only
    p0 (l : ptr) o stmts schedule p' ts' :
  out_stream_valid_ p0 = true ->
  out_stream_ p0 = Some l ->
  heap p0 !! l = Some (live o) ->
  run schedule (p0, ready <$> stmts) = Some (p', ts') ->
  exists order,
    order ≡ₚ through ts' /\
    sink p'
    = Some {| rdbuf := rdbuf o
                       ++ concat (written (prefix_function_list_ p0) <$> order);
              good := good o |}.
Proof.
  intros Hvalid Hout Hlive Hrun.
  pose proof (run_keeps_lines p0 l o _ _ _
                (lines_at_start p0 l o Hvalid Hout Hlive stmts) Hrun)
    as (_ & Hout' & _ & _ & order & Hperm & Hheap).
  simpl in *. exists order. split; [done|].
  unfold sink. by rewrite Hout'; simpl; rewrite Hheap.
Qed.

(** One call before the end of the race the second thread is through and
    the first has inserted both values: the sink holds the second line and
    nothing of the first. *)
Lemma sink_holds_complete_lines_only_witness :
  exists order,
    order ≡ₚ drop 1 racing /\
    sink during_race
    = Some {| rdbuf := rdbuf memory_stream
                       ++ concat (written [clock_prefix] <$> order);
              good := good memory_stream |}.
Proof.
  refine (sink_holds_complete_lines_only stamping 0 memory_stream racing
            before_last_call during_race
            [active _ _ _; finished _]
            eq_refl eq_refl eq_refl _).
  reflexivity.
Defined.

Example race_one_call_before_its_end :
  exists s this,
    racing !! 0 = Some s /\
    out_sync_stream_ this
    = Some {| wrapped := 0; pending := L"1 DEBUG: a1"; error := false |} /\
    run before_last_call (stamping, ready <$> racing)
    = Some (during_race, active s this [] :: (finished <$> drop 1 racing)) /\
    sink during_race = Some {| rdbuf := L"2 INFO: b"; good := true |}.
Proof.
  do 2 eexists. split; [reflexivity|]. split; [|split; reflexivity].
  reflexivity.
Qed.

(** X4: concurrent logging statements on a valid sink can always be run to
    the end when the inserters of their values return: from the start
    there is a schedule after which every thread is through. *)
Theorem concurrent_statements_complete p0 (l : ptr) o stmts :
  out_stream_valid_ p0 = true ->
  out_stream_ p0 = Some l ->
  heap p0 !! l = Some (live o) ->
  Forall (fun s => Forall (fun v => inserts v = true) (stmt_values s)) stmts ->
  exists schedule p' ts',
    run schedule (p0, ready <$> stmts) = Some (p', ts') /\
    Forall (fun t => is_finished t = true) ts' /\
    program <$> ts' = stmts.
Proof.
  intros Hvalid Hout Hlive Hins.
  destruct (a_complete_execution_exists p0 l o Hvalid Hout Hlive stmts Hins)
    as (schedule & p' & ts' & Hrun & Hdone).
  exists schedule, p', ts'. split; [done|]. split; [done|].
  pose proof (run_programs _ _ _ Hrun) as Hprog. simpl in Hprog.
  by rewrite Hprog, program_ready.
Qed.

Lemma concurrent_statements_complete_witness :
  exists schedule p' ts',
    run schedule (logging, ready <$> racing) = Some (p', ts') /\
    Forall (fun t => is_finished t = true) ts' /\
    program <$> ts' = racing.
Proof.
  apply (concurrent_statements_complete logging 0 memory_stream racing);
    try reflexivity.
  repeat constructor.
Defined.

(** ** A generator that throws in the middle of the list *)

Lemma try_block_stops severity newline w p sink before
    (failing : PrefixFunction) after outputs e :
  operator_new w = yields tt ->
  prefix_function_list_ p = before ++ failing :: after ->
  Forall2 (fun (prefix : PrefixFunction) text => prefix w = yields text)
          before outputs ->
  failing w = raises e ->
  try_block severity w p sink (fresh newline)
  = ({| newline_ := newline;
        out_sync_stream_ :=
          Some {| wrapped := sink; pending := concat outputs;
                  error := false |};
        out_sync_stream_valid_ := true |}, raises e).
Proof.
  intros Hnew Hlist Hall Hfail. apply operator_new_yields in Hnew as [_ Hnew].
  rewrite try_block_text, Hnew, Hlist.
  by rewrite (prefix_outputs_stops _ _ _ _ _ _ Hall Hfail).
Qed.

(** X5: when a generator in the middle of the list throws a
    [std::exception], the generators after it are not invoked and no tag
    and no separator are written; the outputs of the generators before it
    stay pending in a valid handle, and the diagnostic goes to
    [std::cerr]. *)
Theorem prefix_failure_keeps_earlier_prefixes
    severity newline w p (sink : ptr) o before (failing : PrefixFunction)
    after outputs what :
  out_stream_valid_ p = true ->
  out_stream_ p = Some sink ->
  heap p !! sink = Some (live o) ->
  operator_new w = yields tt ->
  prefix_function_list_ p = before ++ failing :: after ->
  Forall2 (fun (prefix : PrefixFunction) text => prefix w = yields text)
          before outputs ->
  failing w = raises (std_exception what) ->
  constructor severity newline w p
  = Returns ({| newline_ := newline;
                out_sync_stream_ :=
                  Some {| wrapped := sink; pending := concat outputs;
                          error := false |};
                out_sync_stream_valid_ := true |},
             report what p).
Proof.
  intros Hvalid Hsink Hlive Hnew Hlist Hall Hfail. unfold constructor.
  rewrite (proj1 (operator_new_yields w Hnew)), Hvalid, Hsink, Hlive.
  by rewrite (try_block_stops _ _ _ _ _ _ _ _ _ _ Hnew Hlist Hall Hfail).
Qed.

Lemma prefix_failure_keeps_earlier_prefixes_witness :
  constructor kInfo true calm
    (SetPrefixList [clock_prefix; failing_prefix; alien_prefix] logging)
  = Returns ({| newline_ := true;
                out_sync_stream_ :=
                  Some {| wrapped := 0; pending := concat [L"0 "];
                          error := false |};
                out_sync_stream_valid_ := true |},
             report "prefix failed"
               (SetPrefixList [clock_prefix; failing_prefix; alien_prefix]
                  logging)).
Proof.
  refine (prefix_failure_keeps_earlier_prefixes kInfo true calm
            (SetPrefixList [clock_prefix; failing_prefix; alien_prefix]
               logging)
            0 memory_stream [clock_prefix] failing_prefix [alien_prefix]
            [L"0 "] "prefix failed"
            eq_refl eq_refl eq_refl eq_refl eq_refl _ eq_refl).
  repeat constructor.
Defined.

(** X6: when a generator throws an exception that is not a
    [std::exception], the constructor throws it on to the caller; what the
    generators before it wrote is handed to the sink as the object is
    unwound, without tag, separator or terminator, and [std::cerr] gets
    nothing. *)
Theorem other_exception_leaves_constructor
    severity newline w p (sink : ptr) o before (failing : PrefixFunction)
    after outputs :
  out_stream_valid_ p = true ->
  out_stream_ p = Some sink ->
  heap p !! sink = Some (live o) ->
  operator_new w = yields tt ->
  prefix_function_list_ p = before ++ failing :: after ->
  Forall2 (fun (prefix : PrefixFunction) text => prefix w = yields text)
          before outputs ->
  failing w = raises other_exception ->
  constructor severity newline w p
  = Throws other_exception
      {| heap := <[sink := live {| rdbuf := rdbuf o ++ concat outputs;
                                   good := good o |}]> (heap p);
         prefix_function_list_ := prefix_function_list_ p;
         out_stream_ := Some sink;
         out_stream_valid_ := true;
         cerr := cerr p |}.
Proof.
  intros Hvalid Hsink Hlive Hnew Hlist Hall Hfail. unfold constructor.
  rewrite (proj1 (operator_new_yields w Hnew)), Hvalid, Hsink, Hlive.
  rewrite (try_block_stops _ _ _ _ _ _ _ _ _ _ Hnew Hlist Hall Hfail).
  unfold reset, emit; cbn -[L]. by rewrite Hlive, Hsink, Hvalid.
Qed.

Lemma other_exception_leaves_constructor_witness :
  constructor kInfo true calm
    (SetPrefixList [clock_prefix; alien_prefix] logging)
  = Throws other_exception
      {| heap := [live {| rdbuf := L"0 "; good := true |}];
         prefix_function_list_ := [clock_prefix; alien_prefix];
         out_stream_ := Some 0;
         out_stream_valid_ := true;
         cerr := EmptyString |}.
Proof.
  refine (other_exception_leaves_constructor kInfo true calm
            (SetPrefixList [clock_prefix; alien_prefix] logging)
            0 memory_stream [clock_prefix] alien_prefix [] [L"0 "]
            eq_refl eq_refl eq_refl eq_refl eq_refl _ eq_refl).
  repeat constructor.
Defined.

(** ** What the member functions never do *)

Lemma chain_on_handle nl s values :
  (Forall (fun v => inserts v = true) values /\
   exists this',
     chain {| newline_ := nl; out_sync_stream_ := Some s;
              out_sync_stream_valid_ := true |} values = Returns this')
  \/
  (~ Forall (fun v => inserts v = true) values /\
   chain {| newline_ := nl; out_sync_stream_ := Some s;
            out_sync_stream_valid_ := true |} values = Terminates).
Proof.
  revert s. induction values as [|[T HT v] rest IH]; intros s.
  - left. split; [done|]. by eexists.
  - cbn [chain]. unfold operator_shl; simpl.
    destruct (insertion v) as [[text sets]|e] eqn:Hv.
    + destruct (IH (write text sets s)) as [[Hall Hret]|[Hnot Hterm]].
      * left. split; [|done]. constructor; [|done]. simpl. by rewrite Hv.
      * right. split; [|done]. intros Hall. apply Hnot.
        by apply Forall_cons in Hall as [_ ?].
    + right. split; [|done]. intros Hall.
      apply Forall_cons in Hall as [Hins _]. simpl in Hins.
      by rewrite Hv in Hins.
Qed.

(** X7: on an object the constructor has returned, a chain of insertions
    never throws and never has undefined behaviour: it returns, or it
    terminates the program, and it terminates exactly when the handle is
    valid and the inserter of one of the values throws. *)
Theorem insertions_return_or_terminate
    severity newline w p this p1 values :
  constructor severity newline w p = Returns (this, p1) ->
  ((exists this', chain this values = Returns this') \/
   chain this values = Terminates) /\
  (chain this values = Terminates <->
   out_sync_stream_valid_ this = true /\
   ~ Forall (fun v => inserts v = true) values).
Proof.
  intros Hctor.
  apply constructor_returns in Hctor as [_ [->|(l & text & _ & _ & ->)]].
  - rewrite chain_without_handle by done. split; [eauto|].
    split; [done|]. by intros [? _].
  - destruct (chain_on_handle newline
                {| wrapped := l; pending := text; error := false |}
                values) as [[Hall [this' Hret]]|[Hnot Hterm]].
    + rewrite Hret. split; [eauto|]. split; [done|]. by intros [_ ?].
    + rewrite Hterm. split; [eauto|]. done.
Qed.

Lemma insertions_return_or_terminate_witness :
  chain {| newline_ := true;
           out_sync_stream_ :=
             Some {| wrapped := 0; pending := L"DEBUG: "; error := false |};
           out_sync_stream_valid_ := true |}
        [Value (L"a"); Value {| thrown := other_exception |}]
  = Terminates.
Proof.
  apply (insertions_return_or_terminate kDebug true calm logging _ logging
           [Value (L"a"); Value {| thrown := other_exception |}] eq_refl).
  split; [reflexivity|].
  intros Hall. apply Forall_cons in Hall as [_ Hall].
  apply Forall_cons in Hall as [Hins _]. discriminate Hins.
Defined.

(** X8: while [out_stream_valid_] implies a sink, the constructor has no
    undefined behaviour, whatever the severity, the environment and the
    generators: it returns or it throws. *)
Theorem constructor_is_defined severity newline w p :
  registry_invariant p ->
  constructor severity newline w p <> Undefined.
Proof.
  intros Hinv. unfold constructor.
  destruct (table_new w) as [[]|e0]; [|done].
  destruct (out_stream_valid_ p) eqn:Hvalid; [|done].
  destruct (Hinv Hvalid) as [o Ho]. unfold sink in Ho.
  destruct (out_stream_ p) as [l|]; [|done]. simpl in Ho.
  destruct (heap p !! l) as [[o'|]|] eqn:Hlive; [|done..].
  destruct (try_block severity w p l (fresh newline)) as [this c] eqn:Hb.
  destruct c as [[]|[what|]]; [done..|].
  apply try_block_handle_on in Hb. unfold handle_on in Hb.
  destruct (out_sync_stream_ this) as [os|]; simpl; [|done].
  destruct Hb as [<- _]. unfold emit. by rewrite Hlive.
Qed.

Lemma constructor_is_defined_witness :
  constructor 9 true exhausted
    (SetPrefixList [alien_prefix] logging) <> Undefined.
Proof.
  apply (constructor_is_defined 9 true exhausted
           (SetPrefixList [alien_prefix] logging)).
  intros _. by exists memory_stream.
Defined.

(** ** Ownership of the streams *)

Lemma emit_live_before s p p' (l : ptr) o' :
  emit s p = Some p' ->
  heap p' !! l = Some (live o') ->
  exists o, heap p !! l = Some (live o).
Proof.
  unfold emit. destruct (heap p !! wrapped s) as [[o|]|] eqn:Hs; [|done..].
  intros [= <-]; simpl. destruct (decide (l = wrapped s)) as [->|Hne].
  - eauto.
  - rewrite list_lookup_insert_ne by done. eauto.
Qed.

Lemma reset_owns os p p' :
  reset os p = Some p' -> owns_every_stream p -> owns_every_stream p'.
Proof.
  destruct os as [s|]; simpl; [|by intros [= <-]].
  intros Hemit Hown l o' Hl.
  destruct (emit_live_before _ _ _ _ _ Hemit Hl) as [o Ho].
  destruct (emit_registry _ _ _ Hemit) as (_ & -> & _). by eapply Hown.
Qed.

Lemma SetOstream_owns out_stream p :
  owns_every_stream p -> owns_every_stream (SetOstream out_stream p).
Proof.
  intros Hown.
  assert (Hdead : forall (l : ptr) o,
             match out_stream_ p with
             | Some old => <[old := deleted]> (heap p)
             | None => heap p
             end !! l <> Some (live o)).
  { intros l o Hl. destruct (out_stream_ p) as [old|] eqn:Hout.
    - destruct (decide (l = old)) as [->|Hne].
      + pose proof (lookup_lt_Some _ _ _ Hl) as Hlt.
        rewrite length_insert in Hlt.
        by rewrite list_lookup_insert_eq in Hl.
      + rewrite list_lookup_insert_ne in Hl by done.
        apply Hown in Hl. congruence.
    - apply Hown in Hl. congruence. }
  unfold SetOstream. destruct out_stream as [s|]; intros l o Hl; simpl in *.
  - destruct (decide (l < length
        match out_stream_ p with
        | Some old => <[old := deleted]> (heap p)
        | None => heap p
        end)) as [Hlt|Hge].
    + rewrite lookup_app_l in Hl by done. by apply Hdead in Hl.
    + rewrite lookup_app_r in Hl by lia.
      pose proof (lookup_lt_Some _ _ _ Hl) as Hone. simpl in Hone.
      f_equal. lia.
  - by apply Hdead in Hl.
Qed.

(** X9: in every state the process can reach through the member functions
    the only stream alive is the sink: [SetOstream] deletes the stream it
    replaces, also when it installs none, and nothing else creates or
    keeps one. *)
Theorem registry_owns_every_stream p :
  reachable p -> owns_every_stream p.
Proof.
  induction 1 as [|p p' _ IH Hstep]; [by intros l o|].
  destruct Hstep as [out_stream p|prefix_list p|severity newline w p this p'
                     Hctor|severity newline w p e p' Hctor|this p p' Hdtor].
  - by apply SetOstream_owns.
  - exact IH.
  - apply constructor_returns in Hctor as [[->|[what ->]] _]; exact IH.
  - revert Hctor. unfold constructor.
    destruct (table_new w) as [[]|e0]; [|by intros [= _ <-]].
    destruct (out_stream_valid_ p); [|done].
    destruct (out_stream_ p) as [l|] eqn:Hout; [|done].
    destruct (heap p !! l) as [[o|]|]; [|done..].
    destruct (try_block severity w p l _) as [this [[]|[what|]]]; [done..|].
    destruct (reset _ p) as [p1|] eqn:Hreset; [|done].
    intros [= _ <-]. by eapply reset_owns.
  - revert Hdtor. unfold destructor.
    destruct (newline_ this && out_sync_stream_valid_ this).
    + destruct (out_sync_stream_ this) as [s|]; [|done].
      destruct (reset _ p) as [p1|] eqn:Hreset; [|done].
      intros [= <-]. by eapply reset_owns.
    + destruct (reset _ p) as [p1|] eqn:Hreset; [|done].
      intros [= <-]. by eapply reset_owns.
Qed.

Lemma registry_owns_every_stream_witness :
  owns_every_stream (SetOstream (Some failed_stream) logging).
Proof.
  apply registry_owns_every_stream.
  eapply reachable_transition; [|constructor].
  eapply reachable_transition; [apply reachable_initial|constructor].
Defined.

(** ** The prefix list replaced under a line *)

Lemma reset_SetPrefixList os prefix_list p q :
  reset os p = Some q ->
  reset os (SetPrefixList prefix_list p) = Some (SetPrefixList prefix_list q).
Proof.
  destruct os as [s|]; simpl; [|by intros [= <-]].
  unfold emit; simpl. destruct (heap p !! wrapped s) as [[o|]|]; [|done..].
  by intros [= <-].
Qed.

(** X10: replacing the prefix list while a line is under construction does
    not touch the line: the destructor hands over the same characters,
    those written with the list the line was constructed with, and the new
    list stays installed. *)
Theorem prefix_list_change_leaves_line this prefix_list p q :
  destructor this p = Returns q ->
  destructor this (SetPrefixList prefix_list p)
  = Returns (SetPrefixList prefix_list q).
Proof.
  unfold destructor.
  destruct (newline_ this && out_sync_stream_valid_ this).
  - destruct (out_sync_stream_ this) as [s|]; [|done].
    destruct (reset _ p) as [q'|] eqn:Hreset; [|done].
    intros [= <-]. by rewrite (reset_SetPrefixList _ _ _ _ Hreset).
  - destruct (reset _ p) as [q'|] eqn:Hreset; [|done].
    intros [= <-]. by rewrite (reset_SetPrefixList _ _ _ _ Hreset).
Qed.

Lemma prefix_list_change_leaves_line_witness :
  destructor {| newline_ := true;
                out_sync_stream_ :=
                  Some {| wrapped := 0; pending := L"INFO: x";
                          error := false |};
                out_sync_stream_valid_ := true |}
             (SetPrefixList [clock_prefix] logging)
  = Returns (SetPrefixList [clock_prefix]
               {| heap := [live {| rdbuf := L"INFO: x" ++ endl;
                                   good := true |}];
                  prefix_function_list_ := [];
                  out_stream_ := Some 0;
                  out_stream_valid_ := true;
                  cerr := EmptyString |}).
Proof.
  exact (prefix_list_change_leaves_line
           {| newline_ := true;
              out_sync_stream_ :=
                Some {| wrapped := 0; pending := L"INFO: x";
                        error := false |};
              out_sync_stream_valid_ := true |}
           [clock_prefix] logging
           {| heap := [live {| rdbuf := L"INFO: x" ++ endl; good := true |}];
              prefix_function_list_ := [];
              out_stream_ := Some 0;
              out_stream_valid_ := true;
              cerr := EmptyString |}
           eq_refl).
Defined.

(** ** The severity table *)

(** X11: the tags of the table are pairwise different, and only the
    severities 0..4 have one: two severities for which the lookup returns
    the same tag are the same severity, one of the five enumerators. *)
Theorem severity_tags_distinct (s1 s2 : Severity) (tag : wstring) :
  at_ severity_map s1 = yields tag ->
  at_ severity_map s2 = yields tag ->
  s1 = s2 /\ s1 <= 4.
Proof.
  assert (Hbound : forall (s : Severity) (t : wstring),
             at_ severity_map s = yields t -> s <= 4).
  { intros s t. do 5 (destruct s as [|s]; [intros; lia|]). done. }
  intros H1 H2. pose proof (Hbound _ _ H1). pose proof (Hbound _ _ H2).
  split; [|done]. revert H1 H2.
  destruct s1 as [|[|[|[|[|?]]]]]; try lia;
    destruct s2 as [|[|[|[|[|?]]]]]; try lia;
    intros [= <-] H2; first [reflexivity | cbv in H2; discriminate H2].
Qed.

Lemma severity_tags_distinct_witness : kError = 3 /\ kError <= 4.
Proof.
  exact (severity_tags_distinct kError 3 (L"ERROR") eq_refl eq_refl).
Defined.

(** ** Statements without a sink *)

(** X14: while no valid sink is installed, a logging statement does one of
    two things. When the table of the line can be allocated, the statement
    returns, whatever its severity and its values, and leaves the process
    as it is: no stream is written, [std::cerr] neither, and no inserter is
    called. When the table cannot be allocated, the statement throws the
    exception of the allocation, with the process as it is. *)
Theorem log_statement_without_sink severity newline values w p :
  out_stream_valid_ p = false ->
  match table_new w with
  | yields _ =>
      constructor severity newline w p = Returns (fresh newline, p) /\
      chain (fresh newline) values = Returns (fresh newline) /\
      destructor (fresh newline) p = Returns p /\
      log_statement severity newline values w p = Returns p
  | raises e =>
      constructor severity newline w p = Throws e p /\
      log_statement severity newline values w p = Throws e p
  end.
Proof.
  intros Hvalid. unfold log_statement, constructor.
  destruct (table_new w) as [[]|e]; [|done]. rewrite Hvalid.
  rewrite chain_without_handle by done.
  unfold destructor, fresh; simpl. by rewrite andb_false_r.
Qed.

Lemma log_statement_without_sink_witness :
  log_statement 9 true [Value {| thrown := other_exception |}] calm
    (SetOstream (Some failed_stream) logging)
  = Returns (SetOstream (Some failed_stream) logging).
Proof.
  apply (log_statement_without_sink 9 true
           [Value {| thrown := other_exception |}] calm
           (SetOstream (Some failed_stream) logging) eq_refl).
Defined.

(** ** main.cpp *)

(** X12: when the log file cannot be opened, or the file stream cannot be
    allocated, [main] reports it once on [std::cerr] and installs neither a
    sink nor a prefix generator; when the tables of its five logging
    statements can then be allocated, the statements write nothing and
    throw nothing, and [main] ends in the initial state but for the
    diagnostic. *)
Theorem main_without_log_file env opened DateTimePrefix pi what :
  operator_new (env 0) = raises (std_exception what) \/
  (operator_new (env 0) = yields tt /\ fail opened = true /\
   what = "failed to open file"%string) ->
  (forall i, 1 <= i <= 5 -> table_new (env i) = yields tt) ->
  main env opened DateTimePrefix pi = Returns (report what initial).
Proof.
  intros Hopen Htable.
  assert (Hstmts : Forall (fun s => table_new (stmt_world s) = yields tt)
                          (main_statements env pi)).
  { repeat constructor; apply Htable; lia. }
  destruct Hopen as [Hnew|(Hnew & Hfail & ->)]; unfold main, main_try;
    rewrite Hnew, ?Hfail; by apply log_statements_without_sink.
Qed.

Lemma main_without_log_file_witness :
  main ticking no_log_file clock_prefix pi_literal
  = Returns (report "failed to open file" initial).
Proof.
  apply main_without_log_file; [right; by repeat split|done].
Defined.

(** Without log file and without memory for the table of the first
    statement, [main] is left by [std::bad_alloc]. *)
Example main_without_log_file_and_memory :
  main famished no_log_file clock_prefix pi_literal
  = Throws (std_exception "std::bad_alloc")
           (report "failed to open file" initial).
Proof. reflexivity. Qed.

(** X13: when the log file opens in good state, the allocations succeed
    and [DateTimePrefix] returns, [main] ends with the file as sink,
    [DateTimePrefix] as the only prefix generator, and five lines added to
    the file in the order of the program, each made of the time stamp of
    its own moment, the tag, the separator, the values and the terminator;
    nothing is written to [std::cerr]. *)
Theorem main_writes_five_lines env opened DateTimePrefix pi stamp :
  (forall i, operator_new (env i) = yields tt) ->
  fail opened = false ->
  good (file opened) = true ->
  (forall i, DateTimePrefix (env i) = yields (stamp i)) ->
  main env opened DateTimePrefix pi
  = Returns
      {| heap :=
           [live {| rdbuf := rdbuf (file opened)
                      ++ stamp 1 ++ L"DEBUG: Line 1" ++ endl
                      ++ stamp 2 ++ L"INFO: Line 2" ++ endl
                      ++ stamp 3 ++ L"WARNING: Pi = " ++ digits pi ++ endl
                      ++ stamp 4 ++ L"ERROR: Divide by zero" ++ endl
                      ++ stamp 5 ++ L"CRITICAL: Line End" ++ endl;
                    good := true |}];
         prefix_function_list_ := [DateTimePrefix];
         out_stream_ := Some 0;
         out_stream_valid_ := true;
         cerr := EmptyString |}.
Proof.
  intros Hnew Hfail Hgood Hstamp. unfold main, main_try.
  rewrite Hnew, Hfail. cbn [log_statements main_statements].
  assert (Hstep : forall severity values i o (tag : wstring),
    severity_map !! severity = Some tag ->
    Forall (fun v => clean v = true) values ->
    log_statement severity true values (env i)
      {| heap := [live o]; prefix_function_list_ := [DateTimePrefix];
         out_stream_ := Some 0; out_stream_valid_ := true;
         cerr := EmptyString |}
    = Returns
        {| heap := [live {| rdbuf := rdbuf o ++ stamp i ++ tag ++ L": "
                                     ++ concat (text_of <$> values) ++ endl;
                            good := good o |}];
           prefix_function_list_ := [DateTimePrefix];
           out_stream_ := Some 0; out_stream_valid_ := true;
           cerr := EmptyString |}).
  { intros severity values i o tag Htag Hins.
    assert (Hprefix : Forall2 (fun (prefix : PrefixFunction) text =>
                                 prefix (env i) = yields text)
                              [DateTimePrefix] [stamp i]).
    { repeat constructor. apply Hstamp. }
    rewrite (regular_statement severity true values (env i)
               {| heap := [live o]; prefix_function_list_ := [DateTimePrefix];
                  out_stream_ := Some 0; out_stream_valid_ := true;
                  cerr := EmptyString |}
               0 o tag [stamp i] eq_refl eq_refl eq_refl Htag (Hnew i)
               Hprefix Hins).
    cbn [concat heap prefix_function_list_ cerr]. by rewrite app_nil_r. }
  unfold SetPrefixList, SetOstream; cbn [out_stream_ initial heap app length
    prefix_function_list_ cerr stmt_severity stmt_newline stmt_values
    stmt_world].
  rewrite Hgood.
  rewrite (Hstep kDebug _ 1 _ (L"DEBUG") eq_refl) by repeat constructor.
  rewrite (Hstep kInfo _ 2 _ (L"INFO") eq_refl) by repeat constructor.
  rewrite (Hstep kWarning _ 3 _ (L"WARNING") eq_refl) by repeat constructor.
  rewrite (Hstep kError _ 4 _ (L"ERROR") eq_refl) by repeat constructor.
  rewrite (Hstep kCritical _ 5 _ (L"CRITICAL") eq_refl) by repeat constructor.
  cbn -[L endl app]. rewrite <- !app_assoc, Hgood. reflexivity.
Qed.

Lemma main_writes_five_lines_witness :
  main ticking log_file clock_prefix pi_literal
  = Returns
      {| heap :=
           [live {| rdbuf := L"1 DEBUG: Line 1" ++ endl
                      ++ L"2 INFO: Line 2" ++ endl
                      ++ L"3 WARNING: Pi = 3.14159" ++ endl
                      ++ L"4 ERROR: Divide by zero" ++ endl
                      ++ L"5 CRITICAL: Line End" ++ endl;
                    good := true |}];
         prefix_function_list_ := [clock_prefix];
         out_stream_ := Some 0;
         out_stream_valid_ := true;
         cerr := EmptyString |}.
Proof.
  exact (main_writes_five_lines ticking log_file clock_prefix pi_literal
           (fun i => L (NilZero.string_of_int (Z.to_int (Z.of_nat i)))
                     ++ L" ")
           (fun _ => eq_refl) eq_refl eq_refl (fun _ => eq_refl)).
Defined.
